(** * starter-raycast: the README table generator (src/scripts/generate.ts)

    A shallow embedding of [markdownEscape], [formatTable], [generateMarkdown]
    and the splice step of [generate], and the properties the specification
    states about them.

    Conventions of the embedding.
    - A JavaScript string is a [string]: a sequence of code units, here the
      256 of [ascii], which the script only compares with ASCII characters;
      [String.length] is the [.length] of the source.
    - A row ([string[]]) is a heap object: [formatTable] writes into the rows
      it is given, and [header] and [body] alias the rows of [table].  The
      heap maps a location to the row stored there; a table ([string[][]]) is
      the list of the locations of its rows, so one row may occur twice.
    - A lookup of a location that is not allocated has no counterpart in the
      source; the embedding returns [None] there. *)

From Stdlib Require Import Ascii String ZArith DecimalString.
From stdpp Require Import base option list strings gmap.

Open Scope string_scope.

(** ** JavaScript values used by the script *)

Definition loc := nat.

(** A [number] as the script uses it: a length, or [NaN]. *)
Inductive number := Num (n : nat) | NaN.

Module JS.

(** [ToNumber(undefined)] is [NaN]: reading past the end of a number array
    and using the result as a number. *)
Definition ToNumber (v : option number) : number := default NaN v.

(** [Math.max(a, b)]: [NaN] as soon as one argument is. *)
Definition Math_max (a b : number) : number :=
  match a, b with
  | Num x, Num y => Num (x `max` y)
  | _, _ => NaN
  end.

(** [ToLength] and [ToIntegerOrInfinity] of a length or [NaN]: [NaN] is 0. *)
Definition ToLength (w : number) : nat :=
  match w with Num n => n | NaN => 0 end.

(** [c.repeat(n)] for a one-character string [c]. *)
Fixpoint repeat_char (c : ascii) (n : nat) : string :=
  match n with
  | 0 => ""
  | S k => String c (repeat_char c k)
  end.

(** ['-'.repeat(w)]. *)
Definition repeat (c : ascii) (w : number) : string :=
  repeat_char c (ToLength w).

(** [s.padEnd(w, ' ')]: [s] itself when it is already [w] long or longer. *)
Definition padEnd (s : string) (w : number) : string :=
  s +:+ repeat_char " "%char (ToLength w - String.length s).

(** [a || b] on strings: the empty string is falsy. *)
Definition or_string (a b : string) : string :=
  match a with "" => b | _ => a end.

(** [a || b] on numbers that are lengths: 0 is falsy. *)
Definition or_nat (a b : nat) : nat :=
  match a with 0 => b | _ => a end.

(** [l.join(sep)] on an array of strings. *)
Fixpoint join (sep : string) (l : list string) : string :=
  match l with
  | [] => ""
  | [x] => x
  | x :: rest => x +:+ sep +:+ join sep rest
  end.

(** [a[i] = v] on a number array.  Inside the array it overwrites; at the
    end it appends; further out JavaScript leaves holes, which read as
    [undefined], that is [NaN] once used as a number, and which [map] and
    [join] render like [NaN] here (an empty run of dashes). *)
Definition set_index (a : list number) (i : nat) (v : number) : list number :=
  if decide (i < length a) then <[i:=v]> a
  else a ++ replicate (i - length a) NaN ++ [v].

(** [a[i]] on a number array, used as a number. *)
Definition get_index (a : list number) (i : nat) : number :=
  ToNumber (a !! i).

End JS.

(** ** [markdownEscape] *)

(** [s.replaceAll(pat, rep)] for a pattern [pat] of one code unit or more and
    a replacement text without [$], which is inserted as it is: the matches
    are found from left to right and do not overlap.  [skip] counts the code
    units of the current match still to drop. *)
Fixpoint replaceAll_from (pat rep : string) (skip : nat) (s : string) : string :=
  match s with
  | "" => ""
  | String c s' =>
      match skip with
      | S k => replaceAll_from pat rep k s'
      | 0 =>
          if String.prefix pat s
          then rep +:+ replaceAll_from pat rep (String.length pat - 1) s'
          else String c (replaceAll_from pat rep 0 s')
      end
  end.

Definition replaceAll (s pat rep : string) : string :=
  replaceAll_from pat rep 0 s.

(** Lines 27-33. *)
Definition markdownEscape (text : string) : string :=
  replaceAll
    (replaceAll
       (replaceAll
          (replaceAll text "&" "&amp;")
          "<" "&lt;")
       ">" "&gt;")
    "|" "&vert;".

(** ** [formatTable] *)

(** The line ["| " + cells.join(" | ") + " |"]. *)
Definition line (cells : list string) : string :=
  "| " +:+ JS.join " | " cells +:+ " |".

(** Lines 43-45: [row.forEach((col, idx) => colChars[idx] =
    Math.max(colChars[idx], col?.length || 0))], from index [idx] on. *)
Fixpoint measureRow (row : list string) (idx : nat) (colChars : list number)
  : list number :=
  match row with
  | [] => colChars
  | col :: rest =>
      measureRow rest (S idx)
        (JS.set_index colChars idx
           (JS.Math_max (JS.get_index colChars idx)
                        (Num (JS.or_nat (String.length col) 0))))
  end.

(** Lines 42-46: the first [table.forEach]; rows are read, not written. *)
Fixpoint measureTable (h : gmap loc (list string)) (table : list loc)
    (colChars : list number) : option (list number) :=
  match table with
  | [] => Some colChars
  | l :: rest =>
      row ← h !! l;
      measureTable h rest (measureRow row 0 colChars)
  end.

(** Line 50, the value stored: [col?.padEnd(colChars[colIdx], ' ') || '']. *)
Definition padCell (colChars : list number) (colIdx : nat) (col : string)
  : string :=
  JS.or_string (JS.padEnd col (JS.get_index colChars colIdx)) "".

(** Lines 49-51: [row.forEach((col, colIdx) => table[rowIdx][colIdx] = ...)]
    on the row at [l], which is both [row] and [table[rowIdx]].  [forEach]
    fixes the number of visits when it starts ([n] of them remain) and reads
    each cell when it visits it. *)
Fixpoint padRow (l : loc) (colChars : list number) (colIdx n : nat)
    (h : gmap loc (list string)) : option (gmap loc (list string)) :=
  match n with
  | 0 => Some h
  | S k =>
      row ← h !! l;
      col ← row !! colIdx;
      padRow l colChars (S colIdx) k
        (<[l := <[colIdx := padCell colChars colIdx col]> row]> h)
  end.

(** Lines 48-52: the second [table.forEach]. *)
Fixpoint padTable (table : list loc) (colChars : list number)
    (h : gmap loc (list string)) : option (gmap loc (list string)) :=
  match table with
  | [] => Some h
  | l :: rest =>
      row ← h !! l;
      h' ← padRow l colChars 0 (length row) h;
      padTable rest colChars h'
  end.

(** Lines 35-59.  The result is the returned string and the heap after the
    call. *)
Definition formatTable (table : list loc) (h : gmap loc (list string))
  : option (string * gmap loc (list string)) :=
  match table with
  | [] => Some ("**No data**", h)
  | header :: body =>
      hrow ← h !! header;
      let colChars := replicate (length hrow) (Num 0) in
      colChars ← measureTable h table colChars;
      h' ← padTable table colChars h;
      hcells ← h' !! header;
      brows ← mapM (λ l, h' !! l) body;
      Some (JS.join (String "010" "")
              (line hcells
               :: line (map (JS.repeat "-"%char) colChars)
               :: map line brows),
            h')
  end.

(** ** The table as a value

    What [formatTable] computes, as a function of the rows the table points
    to.  [formatTable_deref] below relates the two. *)

(** The rows a table points to. *)
Definition deref (h : gmap loc (list string)) (table : list loc)
  : option (list (list string)) :=
  mapM (λ l, h !! l) table.

(** [colChars] after the first pass over [rows], starting from [colChars]. *)
Definition measureRows (rows : list (list string)) (colChars : list number)
  : list number :=
  foldl (λ cc row, measureRow row 0 cc) colChars rows.

(** A row after the second pass. *)
Definition padCells (colChars : list number) (row : list string)
  : list string :=
  imap (padCell colChars) row.

(** A row in the middle of its second pass: the cells from [k] on are still
    to be padded. *)
Definition paddedBelow (colChars : list number) (k : nat) (row : list string)
  : list string :=
  imap (λ j col, if decide (j < k)%nat then padCell colChars j col else col) row.

(** The heap after the second pass: the rows of the table are padded, once,
    however often they occur in the table; the others are as before. *)
Definition padHeap (colChars : list number) (table : list loc)
    (h : gmap loc (list string)) : gmap loc (list string) :=
  map_imap (λ l row,
    Some (if decide (l ∈ table) then padCells colChars row else row)) h.

(** The text of a table whose rows are [header :: body]. *)
Definition render (header : list string) (body : list (list string)) : string :=
  let colChars :=
    measureRows (header :: body) (replicate (length header) (Num 0)) in
  JS.join (String "010" "")
    (line (padCells colChars header)
     :: line (map (JS.repeat "-"%char) colChars)
     :: map (λ row, line (padCells colChars row)) body).

(** The length of the cell of [row] at column [i], 0 when there is none. *)
Definition cellLength (row : list string) (i : nat) : nat :=
  from_option String.length 0 (row !! i).

(** The width of column [i] in the words of the specification: the largest
    cell length at [i] over all rows. *)
Definition columnWidth (rows : list (list string)) (i : nat) : nat :=
  max_list (map (λ row, cellLength row i) rows).

(** ** [generateMarkdown] *)

(** Lines 10-15. *)
Record RaycastCommand := {
  cmd_name : string;
  cmd_title : string;
  cmd_description : string;
  cmd_mode : string;
}.

(** A value of type [unknown] read from the manifest.  [Integer] is a number
    with an integer value (of magnitude below 2^53, which JavaScript prints
    digit by digit); fractions, arrays and objects are not represented. *)
Inductive unknown :=
  | Undefined
  | Null
  | Boolean (b : bool)
  | Integer (z : Z)
  | Text (s : string).

(** Lines 17-25; an optional boolean is [None] when absent, an optional
    [unknown] is [Undefined] when absent. *)
Record RaycastPreference := {
  pref_name : string;
  pref_title : string;
  pref_type : string;
  pref_required : option bool;
  pref_description : string;
  pref_default : unknown;
}.

(** Lines 5-8. *)
Record PackageJSON := {
  commands : option (list RaycastCommand);
  preferences : option (list RaycastPreference);
}.

(** [String(v)]. *)
Definition String_of (v : unknown) : string :=
  match v with
  | Undefined => "undefined"
  | Null => "null"
  | Boolean true => "true"
  | Boolean false => "false"
  | Integer z => NilZero.string_of_int (Z.to_int z)
  | Text s => s
  end.

(** A template literal that wraps [s] in backticks. *)
Definition backticks (s : string) : string := "`" +:+ s +:+ "`".

(** Lines 73-76: the row of a command. *)
Definition commandRow (c : RaycastCommand) : list string :=
  [ backticks (cmd_title c); markdownEscape (cmd_description c) ].

(** [p.required ? 'Yes' : 'No']: an absent flag is falsy. *)
Definition requiredText (required : option bool) : string :=
  match required with Some true => "Yes" | _ => "No" end.

(** Lines 87-92: the row of a preference. *)
Definition preferenceRow (p : RaycastPreference) : list string :=
  [ backticks (pref_name p);
    markdownEscape (pref_description p);
    backticks (requiredText (pref_required p));
    markdownEscape (String_of (pref_default p)) ].

(** Lines 62-98 build two arrays of rows.  [buildTable header items] is the
    value of [commandsTable] (of [configsTable]) when [formatTable] is
    called: the header and one row per item, or no row at all when the list
    is absent or empty. *)
Definition buildTable (header : list string) (items : option (list (list string)))
  : list (list string) :=
  match items with
  | Some (item :: rest) => header :: item :: rest
  | _ => []
  end.

Definition commandsRows (packageJson : PackageJSON) : list (list string) :=
  buildTable ["Title"; "Description"] (map commandRow <$> commands packageJson).

Definition configsRows (packageJson : PackageJSON) : list (list string) :=
  buildTable ["Key"; "Description"; "Required"; "Default"]
    (map preferenceRow <$> preferences packageJson).

(** A new array: a location that is not in use. *)
Definition alloc (row : list string) (h : gmap loc (list string))
  : loc * gmap loc (list string) :=
  let l := fresh (dom h) in (l, <[l := row]> h).

(** The rows of a table, each a new array. *)
Fixpoint allocRows (rows : list (list string)) (h : gmap loc (list string))
  : list loc * gmap loc (list string) :=
  match rows with
  | [] => ([], h)
  | row :: rest =>
      let '(l, h1) := alloc row h in
      let '(ls, h2) := allocRows rest h1 in
      (l :: ls, h2)
  end.

(** Lines 61-104.  The two tables are made of new arrays; the result is the
    pair [(commandsTable, configsTable)] of rendered texts, and the heap. *)
Definition generateMarkdown (packageJson : PackageJSON)
    (h : gmap loc (list string))
  : option ((string * string) * gmap loc (list string)) :=
  let '(commandsTable, h1) := allocRows (commandsRows packageJson) h in
  let '(configsTable, h2) := allocRows (configsRows packageJson) h1 in
  '(commandsText, h3) ← formatTable commandsTable h2;
  '(configsText, h4) ← formatTable configsTable h3;
  Some ((commandsText, configsText), h4).

(** ** The splice step of [generate] *)

Definition marker (name : string) : string := "<!-- " +:+ name +:+ " -->".

(** [<!-- (a|b) -->] at the start of [s]: the name captured and the text
    after the marker.  The alternatives are tried in order. *)
Fixpoint matchMarker (names : list string) (s : string)
  : option (string * string) :=
  match names with
  | [] => None
  | name :: others =>
      if String.prefix (marker name) s
      then Some (name, String.substring (String.length (marker name))
                         (String.length s - String.length (marker name)) s)
      else matchMarker others s
  end.

(** [[\s\S]*?<!-- (a|b) -->] at the start of [s]: the shortest text before
    a closing marker, the name captured, and the text after it. *)
Fixpoint matchLazy (names : list string) (s : string)
  : option (string * string * string) :=
  match matchMarker names s with
  | Some (name, after) => Some ("", name, after)
  | None =>
      match s with
      | "" => None
      | String c s' =>
          '(mid, name, after) ← matchLazy names s';
          Some (String c mid, name, after)
      end
  end.

(** One match of the regular expression of line 113 (of line 114). *)
Record regexMatch := {
  before : string;   (* the text before the match *)
  capture1 : string; (* $1 *)
  between : string;  (* what [\s\S]*? matched *)
  capture2 : string; (* $2 *)
  after : string;    (* the text after the match *)
}.

Definition matched (m : regexMatch) : string :=
  marker (capture1 m) +:+ between m +:+ marker (capture2 m).

(** The match at the start of [s], if the expression matches there. *)
Definition matchHere (names : list string) (s : string) : option regexMatch :=
  '(name1, rest) ← matchMarker names s;
  '(mid, name2, tail) ← matchLazy names rest;
  Some {| before := ""; capture1 := name1; between := mid;
          capture2 := name2; after := tail |}.

(** The leftmost match in [s]. *)
Fixpoint regexExec (names : list string) (s : string) : option regexMatch :=
  match matchHere names s with
  | Some m => Some m
  | None =>
      match s with
      | "" => None
      | String c s' =>
          m ← regexExec names s';
          Some {| before := String c (before m); capture1 := capture1 m;
                  between := between m; capture2 := capture2 m;
                  after := after m |}
      end
  end.

Definition isDigit (c : ascii) : bool :=
  Nat.leb 48 (nat_of_ascii c) && Nat.leb (nat_of_ascii c) 57.

Definition digitValue (c : ascii) : nat := nat_of_ascii c - 48.

(** [$n] with [n] between 1 and the number of groups is the group; any other
    number leaves the text as it is ([None]). *)
Definition captureRef (captures : list string) (index : nat) : option string :=
  match index with
  | 0 => None
  | S i => captures !! i
  end.

(** [GetSubstitution] of the language specification, for an expression
    without named groups: the replacement text with its [$] patterns
    expanded. *)
Fixpoint GetSubstitution (m : regexMatch) (captures : list string)
    (template : string) : string :=
  match template with
  | "" => ""
  | String c r =>
      if negb (Ascii.eqb c "$"%char) then String c (GetSubstitution m captures r)
      else
        match r with
        | "" => "$"
        | String d r1 =>
            if Ascii.eqb d "$"%char then "$" +:+ GetSubstitution m captures r1
            else if Ascii.eqb d "`"%char then before m +:+ GetSubstitution m captures r1
            else if Ascii.eqb d "&"%char then matched m +:+ GetSubstitution m captures r1
            else if Ascii.eqb d "'"%char then after m +:+ GetSubstitution m captures r1
            else if isDigit d then
              let one :=
                match captureRef captures (digitValue d) with
                | Some text => text +:+ GetSubstitution m captures r1
                | None => String "$" (GetSubstitution m captures r)
                end in
              match r1 with
              | String d2 r2 =>
                  if isDigit d2 then
                    let index := 10 * digitValue d + digitValue d2 in
                    if Nat.leb index (length captures) then
                      match captureRef captures index with
                      | Some text => text +:+ GetSubstitution m captures r2
                      | None => String "$" (GetSubstitution m captures r)
                      end
                    else one
                  else one
              | "" => one
              end
            else String "$" (GetSubstitution m captures r)
        end
  end.

(** The two newlines the replacement text puts around a table. *)
Definition blankLine : string := String "010" (String "010" "").

(** [raw.replace(/<!-- (a|b) -->[\s\S]*?<!-- (a|b) -->/,
    `<!-- $1 -->\n\n${table}\n\n<!-- $2 -->`)]: the first match is
    replaced, and a text without a match is returned as it is. *)
Definition replaceMarkers (names : list string) (table : string) (raw : string)
  : string :=
  match regexExec names raw with
  | None => raw
  | Some m =>
      before m
      +:+ GetSubstitution m [capture1 m; capture2 m]
            ("<!-- $1 -->" +:+ blankLine +:+ table +:+ blankLine
             +:+ "<!-- $2 -->")
      +:+ after m
  end.

(** Lines 112-114. *)
Definition splice (commandsTable configsTable : string) (raw : string) : string :=
  replaceMarkers ["configs"; "configs-table"] configsTable
    (replaceMarkers ["commands"; "commands-table"] commandsTable raw).

(** Lines 106-118, given the parsed manifest and the text of the README: the
    text written to the README, or [None] when nothing is written. *)
Definition generate (packageJson : PackageJSON) (raw : string)
  : option (option string) :=
  '(markdown, _) ← generateMarkdown packageJson ∅;
  let content := splice markdown.1 markdown.2 raw in
  Some (if decide (raw = content) then None else Some content).


(** ** Tables used as examples *)

(** [[["A","B"]]] at location 0. *)
Definition exampleHeaderOnly : gmap loc (list string) :=
  <[0 := ["A"; "B"]]> ∅.

(** [[["Title","Description"],["x","a longer value"]]] at locations 0, 1. *)
Definition exampleTitles : gmap loc (list string) :=
  <[0 := ["Title"; "Description"]]> (<[1 := ["x"; "a longer value"]]> ∅).

(** [[["A","B"],["x"],["long","","z"]]] at locations 0, 1, 2: a row shorter
    and a row longer than the header. *)
Definition exampleJagged : gmap loc (list string) :=
  <[0 := ["A"; "B"]]> (<[1 := ["x"]]> (<[2 := ["long"; ""; "z"]]> ∅)).

(** [[["A","B"],["x"]]] at locations 0, 1: a body row shorter than the
    header. *)
Definition exampleShortRow : gmap loc (list string) :=
  <[0 := ["A"; "B"]]> (<[1 := ["x"]]> ∅).

(** A manifest with one command whose description holds [$1], and a README
    whose two regions hold the tables rendered from it, between the blank
    lines the splice step puts there. *)
Definition exampleDollar : PackageJSON :=
  {| commands := Some [ {| cmd_name := "pay"; cmd_title := "Pay";
                           cmd_description := "costs $1";
                           cmd_mode := "view" |} ];
     preferences := None |}.

Definition exampleReadme : string :=
"<!-- commands -->

| Title | Description |
| ----- | ----------- |
| `Pay` | costs $1    |

<!-- commands -->
<!-- configs -->

**No data**

<!-- configs -->".

(** The worked example after [formatTable]: every cell as wide as its
    column. *)
Definition examplePadded : gmap loc (list string) :=
  <[0 := ["Title"; "Description   "]]> (<[1 := ["x    "; "a longer value"]]> ∅).

(** A manifest with two preferences, the first without a default and
    without a required flag. *)
Definition examplePreferences : PackageJSON :=
  {| commands := None;
     preferences := Some [
       {| pref_name := "token"; pref_title := "Token"; pref_type := "password";
          pref_required := None; pref_description := "a <secret> & more";
          pref_default := Undefined |};
       {| pref_name := "limit"; pref_title := "Limit"; pref_type := "textfield";
          pref_required := Some true; pref_description := "1|2";
          pref_default := Integer 42 |} ] |}.

(** ** Reading a rendered table *)

(** The number of times the code unit [c] occurs in [s]. *)
Fixpoint occurs (c : ascii) (s : string) : nat :=
  match s with
  | "" => 0
  | String x s' => (if Ascii.eqb x c then 1 else 0) + occurs c s'
  end.

(** [s.split(c)]: the pieces of [s] between the occurrences of [c]. *)
Fixpoint splitOn (c : ascii) (s : string) : list string :=
  match s with
  | "" => [""]
  | String x s' =>
      if Ascii.eqb x c then "" :: splitOn c s'
      else match splitOn c s' with
           | piece :: pieces => String x piece :: pieces
           | [] => [String x ""]
           end
  end.

(** The lines of a text. *)
Definition textLines (text : string) : list string := splitOn "010" text.

(** The number of fields of a line [| f1 | ... | fn |]: the pieces between
    two bars, that is all pieces but the one before the first bar and the
    one after the last. *)
Definition fields (ln : string) : nat := length (splitOn "|" ln) - 2.

(** A cell that holds neither a bar nor a newline. *)
Definition plainCell (col : string) : Prop :=
  occurs "|" col = 0 ∧ occurs "010" col = 0.

(** ** Escaping, one character at a time *)

(** The entity of a character, in the words of the specification. *)
Definition entity (c : ascii) : string :=
  if Ascii.eqb c "&" then "&amp;"
  else if Ascii.eqb c "<" then "&lt;"
  else if Ascii.eqb c ">" then "&gt;"
  else if Ascii.eqb c "|" then "&vert;"
  else String c "".

(** The text in which every character [c] of [s] is replaced by [f c]. *)
Fixpoint substitute (f : ascii → string) (s : string) : string :=
  match s with
  | "" => ""
  | String c s' => f c +:+ substitute f s'
  end.

(** One step of [markdownEscape], on one character. *)
Definition replaceChar (c : ascii) (rep : string) (x : ascii) : string :=
  if Ascii.eqb x c then rep else String x "".

(** ** The statements of the specification that are examined below *)

(** "After the call the input table (every row and every cell) is
    unchanged." *)
Definition inputUnchanged (table : list loc) (h : gmap loc (list string))
  : Prop :=
  ∀ text h', formatTable table h = Some (text, h') →
    deref h' table = deref h table.

(** "The header line and every body line have the same number of fields as
    the header row has cells"; line 1 is the line of dashes. *)
Definition fieldsAsHeader (table : list loc) (h : gmap loc (list string))
  : Prop :=
  ∀ text h' header,
    formatTable table h = Some (text, h') →
    head table ≫= (λ l, h !! l) = Some header →
    ∀ k ln, textLines text !! k = Some ln → k ≠ 1 →
      fields ln = length header.

(** ** The two tables as values *)

(** What [formatTable] returns for a table whose rows are [rows]. *)
Definition formatRows (rows : list (list string)) : string :=
  match rows with
  | [] => "**No data**"
  | header :: body => render header body
  end.

(** A manifest with a command and no preferences at all. *)
Definition exampleCommands : PackageJSON :=
  {| commands := Some [ {| cmd_name := "search"; cmd_title := "Search <all>";
                           cmd_description := "find a|b";
                           cmd_mode := "view" |} ];
     preferences := Some [] |}.

(** ** Marker names *)

(** What the two lists of names of lines 113 and 114 have in common: no
    marker starts like another one, and no name holds a [<]. *)
Definition properNames (names : list string) : Prop :=
  (∀ n n' s, n ∈ names → n' ∈ names →
     String.prefix (marker n) (marker n' +:+ s) = true → n = n') ∧
  Forall (λ n, occurs "<" n = 0) names.

(** A match with another text between its markers. *)
Definition withBetween (m : regexMatch) (mid : string) : regexMatch :=
  {| before := before m; capture1 := capture1 m; between := mid;
     capture2 := capture2 m; after := after m |}.

(** The text a match was found in. *)
Definition matchedText (m : regexMatch) : string :=
  before m +:+ matched m +:+ after m.

(** A README with a marker of another name before the commands region and
    one inside it, and a second closing marker after it; and the match of
    the commands expression in it. *)
Definition exampleNotes : string :=
"# Notes <!-- draft -->
<!-- commands-table -->
old <!-- configs --> table
<!-- commands -->
tail <!-- commands -->".

Definition exampleNotesMatch : regexMatch :=
  {| before := "# Notes <!-- draft -->
";
     capture1 := "commands-table";
     between := "
old <!-- configs --> table
";
     capture2 := "commands";
     after := "
tail <!-- commands -->" |}.

(** A README that is up to date for [exampleCommands]. *)
Definition exampleCommandsReadme : string :=
"# Search

<!-- commands -->

| Title          | Description   |
| -------------- | ------------- |
| `Search <all>` | find a&vert;b |

<!-- commands -->

<!-- configs-table -->

**No data**

<!-- configs -->
".

(** The number of cells of the header of a table, 0 for the empty table. *)
Definition headerLength (rows : list (list string)) : nat :=
  match rows with
  | [] => 0
  | header :: _ => length header
  end.

(** A cell after the call, in the words of the amended statement: in a
    column of the header the cell with spaces added up to the width of the
    column, none when it already is that wide; beyond the header the cell as
    it was. *)
Definition paddedCell (rows : list (list string)) (i : nat) (col : string)
  : string :=
  if decide (i < headerLength rows)%nat
  then col +:+ JS.repeat_char " " (columnWidth rows i - String.length col)
  else col.

(** Case analysis on every [decide] of the goal, closing what arithmetic or
    membership settles. *)
Ltac decide_cases :=
  repeat case_decide; first [done | lia | set_solver].

(** * Properties *)

Local Open Scope nat_scope.

(** ** Strings *)

Lemma app_cons (c : ascii) (s t : string) : String c s +:+ t = String c (s +:+ t).
Proof. reflexivity. Qed.

Lemma app_empty_l (s : string) : "" +:+ s = s.
Proof. reflexivity. Qed.

Lemma length_append (s t : string) :
  String.length (s +:+ t) = String.length s + String.length t.
Proof.
  induction s as [|c s IH]; [done|]. rewrite app_cons. simpl. by rewrite IH.
Qed.

Lemma app_empty_r (s : string) : s +:+ "" = s.
Proof. induction s as [|c s IH]; [done|]. by rewrite app_cons, IH. Qed.

Lemma app_assoc_string (s t u : string) : (s +:+ t) +:+ u = s +:+ (t +:+ u).
Proof. induction s as [|c s IH]; [done|]. by rewrite !app_cons, IH. Qed.

Lemma length_repeat_char c n : String.length (JS.repeat_char c n) = n.
Proof. induction n as [|n IH]; simpl; [done | by rewrite IH]. Qed.

Lemma or_nat_0 n : JS.or_nat n 0 = n.
Proof. by destruct n. Qed.

Lemma or_string_empty s : JS.or_string s "" = s.
Proof. by destruct s. Qed.

(** A padded cell is the cell followed by spaces only. *)
Lemma padCell_eq colChars i col :
  padCell colChars i col =
  col +:+ JS.repeat_char " " (JS.ToLength (JS.get_index colChars i) - String.length col).
Proof. unfold padCell. by rewrite or_string_empty. Qed.

Lemma length_padCell colChars i col :
  String.length (padCell colChars i col) =
  String.length col `max` JS.ToLength (JS.get_index colChars i).
Proof. rewrite padCell_eq, length_append, length_repeat_char. lia. Qed.

(** Padding a padded cell again changes nothing. *)
Lemma padCell_idemp colChars i col :
  padCell colChars i (padCell colChars i col) = padCell colChars i col.
Proof.
  rewrite (padCell_eq _ _ (padCell _ _ _)), length_padCell.
  replace (_ - _) with 0 by lia. apply app_empty_r.
Qed.

Lemma length_padCells colChars row : length (padCells colChars row) = length row.
Proof. apply length_imap. Qed.

Lemma padCells_lookup colChars row i :
  padCells colChars row !! i = padCell colChars i <$> row !! i.
Proof. apply list_lookup_imap. Qed.

Lemma padCells_idemp colChars row :
  padCells colChars (padCells colChars row) = padCells colChars row.
Proof.
  apply list_eq; intros i. rewrite !padCells_lookup.
  destruct (row !! i); simpl; [by rewrite padCell_idemp | done].
Qed.

(** ** The first pass: column widths *)

Lemma set_index_length a i v :
  i ≤ length a → length (JS.set_index a i v) = length a `max` S i.
Proof.
  intros Hi. unfold JS.set_index. case_decide.
  - rewrite length_insert. lia.
  - rewrite !length_app, length_replicate. simpl. lia.
Qed.

Lemma set_index_lookup a i v j :
  i ≤ length a →
  JS.set_index a i v !! j = if decide (j = i) then Some v else a !! j.
Proof.
  intros Hi. unfold JS.set_index. case_decide as Hlt.
  - case_decide as Hj; subst.
    + by apply list_lookup_insert_eq.
    + by apply list_lookup_insert_ne.
  - assert (i = length a) as -> by lia.
    rewrite Nat.sub_diag. simpl. case_decide as Hj; subst.
    + rewrite lookup_app_r by lia. by rewrite Nat.sub_diag.
    + destruct (decide (j < length a)).
      * by rewrite lookup_app_l.
      * rewrite !lookup_ge_None_2; [done | lia |]. rewrite length_app. simpl. lia.
Qed.

(** One row of the first pass, cell by cell: column [j] is touched when the
    row has a cell there, and a column the array did not have becomes [NaN]. *)
Lemma measureRow_lookup row : ∀ idx colChars j,
  idx ≤ length colChars →
  measureRow row idx colChars !! j =
    match row !! (j - idx) with
    | Some col =>
        if decide (idx ≤ j)
        then Some (JS.Math_max (JS.get_index colChars j) (Num (String.length col)))
        else colChars !! j
    | None => colChars !! j
    end.
Proof.
  induction row as [|col rest IH]; intros idx colChars j Hidx; simpl.
  { done. }
  rewrite IH by (rewrite set_index_length by done; lia).
  rewrite or_nat_0. unfold JS.get_index.
  rewrite !set_index_lookup by done.
  destruct (decide (j < idx)).
  - replace (j - S idx) with 0 by lia. replace (j - idx) with 0 by lia. simpl.
    destruct rest; repeat case_decide; try lia; done.
  - destruct (decide (j = idx)) as [->|].
    + replace (idx - S idx) with 0 by lia. rewrite Nat.sub_diag. simpl.
      destruct rest; repeat case_decide; try lia; done.
    + replace (j - idx) with (S (j - S idx)) by lia. simpl.
      destruct (rest !! (j - S idx)); repeat case_decide; try lia; done.
Qed.

Lemma measureRow_length row : ∀ idx colChars,
  idx ≤ length colChars →
  length (measureRow row idx colChars) = length colChars `max` (idx + length row).
Proof.
  induction row as [|col rest IH]; intros idx colChars Hidx; simpl; [lia|].
  rewrite IH; rewrite set_index_length by done; lia.
Qed.

Lemma columnWidth_cons row rows i :
  columnWidth (row :: rows) i = cellLength row i `max` columnWidth rows i.
Proof. reflexivity. Qed.

(** A column the array had from the start holds the largest cell length. *)
Lemma measureRows_lookup_num rows : ∀ colChars i w,
  colChars !! i = Some (Num w) →
  measureRows rows colChars !! i = Some (Num (w `max` columnWidth rows i)).
Proof.
  induction rows as [|row rows IH]; intros colChars i w Hi; simpl.
  { rewrite Hi. do 2 f_equal. unfold columnWidth. simpl. lia. }
  rewrite (IH _ i (w `max` cellLength row i)).
  - rewrite columnWidth_cons. do 2 f_equal. lia.
  - rewrite measureRow_lookup by lia. rewrite Nat.sub_0_r.
    unfold cellLength, JS.get_index. rewrite Hi.
    destruct (row !! i); simpl; [|do 2 f_equal; lia].
    repeat case_decide; done || lia.
Qed.

Lemma measureRows_length rows : ∀ colChars,
  length (measureRows rows colChars) =
  length colChars `max` max_list (length <$> rows).
Proof.
  induction rows as [|row rows IH]; intros colChars; [simpl; lia|].
  change (measureRows (row :: rows) colChars)
    with (measureRows rows (measureRow row 0 colChars)).
  rewrite fmap_cons.
  change (max_list (length row :: (length <$> rows)))
    with (length row `max` max_list (length <$> rows)).
  rewrite IH, measureRow_length by lia. lia.
Qed.

(** A column beyond the header is [NaN] as soon as a row has a cell there. *)
Lemma measureRows_lookup_nan rows : ∀ colChars i,
  colChars !! i = None ∨ colChars !! i = Some NaN →
  measureRows rows colChars !! i = None ∨
  measureRows rows colChars !! i = Some NaN.
Proof.
  induction rows as [|row rows IH]; intros colChars i Hi; simpl; [done|].
  apply IH. rewrite measureRow_lookup by lia. rewrite Nat.sub_0_r.
  unfold JS.get_index.
  destruct (row !! i); [|done]. case_decide; [|lia].
  right. by destruct Hi as [-> | ->].
Qed.

#[local] Arguments measureRows : simpl never.
#[local] Arguments columnWidth : simpl never.

(** The widths [formatTable] computes, for the columns of the header. *)
Lemma measureRows_header header body i :
  i < length header →
  measureRows (header :: body) (replicate (length header) (Num 0)) !! i
  = Some (Num (columnWidth (header :: body) i)).
Proof.
  intros Hi.
  rewrite (measureRows_lookup_num _ _ _ 0); [done|]. by apply lookup_replicate_2.
Qed.

Lemma measureRows_beyond header body i :
  length header ≤ i →
  JS.ToLength (JS.get_index
    (measureRows (header :: body) (replicate (length header) (Num 0))) i) = 0.
Proof.
  intros Hi. unfold JS.get_index.
  destruct (measureRows_lookup_nan (header :: body)
              (replicate (length header) (Num 0)) i) as [-> | ->]; try done.
  left. apply lookup_ge_None_2. rewrite length_replicate. lia.
Qed.

(** A cell beyond the columns of the header is left as it is: its width is
    [NaN], and [padEnd] reads that as 0. *)
Lemma padCells_beyond header body row i :
  length header ≤ i →
  padCells (measureRows (header :: body) (replicate (length header) (Num 0)))
    row !! i = row !! i.
Proof.
  intros Hi. rewrite padCells_lookup.
  destruct (row !! i) as [col|]; [|done]. cbn [fmap option_fmap option_map].
  rewrite padCell_eq, measureRows_beyond by done. simpl.
  by rewrite app_empty_r.
Qed.

Lemma measureTable_deref h table : ∀ rows colChars,
  deref h table = Some rows →
  measureTable h table colChars = Some (measureRows rows colChars).
Proof.
  unfold deref. intros rows colChars Hd. apply mapM_Some_1 in Hd.
  revert colChars.
  induction Hd as [|l row table rows Hl Hd IH]; intros colChars; simpl.
  { done. }
  rewrite Hl. simpl. apply IH.
Qed.

(** ** The second pass: padding in place *)

Lemma paddedBelow_0 colChars row : paddedBelow colChars 0 row = row.
Proof.
  apply list_eq; intros j. unfold paddedBelow. rewrite list_lookup_imap.
  destruct (row !! j); simpl; [|done]. decide_cases.
Qed.

Lemma paddedBelow_all colChars k row :
  length row ≤ k → paddedBelow colChars k row = padCells colChars row.
Proof.
  intros Hk. apply imap_ext; intros j col Hj.
  apply lookup_lt_Some in Hj. decide_cases.
Qed.

Lemma paddedBelow_step colChars k row col :
  row !! k = Some col →
  <[k := padCell colChars k col]> (paddedBelow colChars k row)
  = paddedBelow colChars (S k) row.
Proof.
  intros Hk. apply list_eq; intros j. unfold paddedBelow.
  assert (k < length row) by by eapply lookup_lt_Some.
  destruct (decide (j = k)) as [->|].
  - rewrite list_lookup_insert_eq by (rewrite length_imap; lia).
    rewrite list_lookup_imap, Hk. simpl. decide_cases.
  - rewrite list_lookup_insert_ne by done. rewrite !list_lookup_imap.
    destruct (row !! j); simpl; [|done]. decide_cases.
Qed.

Lemma padRow_paddedBelow l colChars row : ∀ n colIdx (h : gmap loc (list string)),
  colIdx + n = length row →
  h !! l = Some (paddedBelow colChars colIdx row) →
  padRow l colChars colIdx n h = Some (<[l := padCells colChars row]> h).
Proof.
  induction n as [|n IH]; intros colIdx h Hlen Hl; simpl.
  - f_equal. symmetry. apply insert_id.
    rewrite Hl. f_equal. apply paddedBelow_all. lia.
  - rewrite Hl. simpl.
    destruct (row !! colIdx) as [col|] eqn:Hcol.
    2: { apply lookup_ge_None in Hcol. lia. }
    assert (paddedBelow colChars colIdx row !! colIdx = Some col) as ->.
    { unfold paddedBelow. rewrite list_lookup_imap, Hcol. simpl.
      decide_cases. }
    simpl. rewrite paddedBelow_step by done.
    rewrite IH; [| lia | by rewrite lookup_insert_eq].
    by rewrite insert_insert_eq.
Qed.

(** The second pass over one row replaces it by its padded cells. *)
Lemma padRow_spec l colChars row (h : gmap loc (list string)) :
  h !! l = Some row →
  padRow l colChars 0 (length row) h = Some (<[l := padCells colChars row]> h).
Proof.
  intros Hl. apply padRow_paddedBelow; [done|]. by rewrite paddedBelow_0.
Qed.

Lemma padHeap_lookup colChars table (h : gmap loc (list string)) l :
  padHeap colChars table h !! l =
  (λ row, if decide (l ∈ table) then padCells colChars row else row) <$> h !! l.
Proof. unfold padHeap. rewrite map_lookup_imap. by destruct (h !! l). Qed.

(** The second pass over the table, rows occurring twice included. *)
Lemma padTable_spec colChars table : ∀ h : gmap loc (list string),
  Forall (λ l, is_Some (h !! l)) table →
  padTable table colChars h = Some (padHeap colChars table h).
Proof.
  induction table as [|l table IH]; intros h Hall; simpl.
  { f_equal. apply map_eq; intros l. rewrite padHeap_lookup.
    destruct (h !! l); simpl; [|done]. decide_cases. }
  inversion Hall as [|?? [row Hl] Hrest]; subst.
  rewrite Hl. simpl. rewrite padRow_spec by done. simpl.
  rewrite IH.
  - f_equal. apply map_eq; intros l'. rewrite !padHeap_lookup.
    destruct (decide (l' = l)) as [->|Hne].
    + rewrite lookup_insert_eq, Hl. simpl. f_equal.
      rewrite (decide_True (P := l ∈ l :: table)) by apply list_elem_of_here.
      case_decide; [apply padCells_idemp | done].
    + rewrite lookup_insert_ne by done.
      destruct (h !! l'); simpl; [|done]. f_equal.
      destruct (decide (l' ∈ table)) as [Hin|Hin].
      * rewrite decide_True; [done | by apply list_elem_of_further].
      * rewrite decide_False; [done|].
        by intros [?|?]%elem_of_cons.
  - eapply Forall_impl; [exact Hrest|]. intros l' [row' Hl']. simpl.
    destruct (decide (l' = l)) as [->|].
    + rewrite lookup_insert_eq. eauto.
    + rewrite lookup_insert_ne by done. eauto.
Qed.

Lemma deref_allocated h table rows :
  deref h table = Some rows → Forall (λ l, is_Some (h !! l)) table.
Proof.
  intros Hd. assert (is_Some (deref h table)) as Hs by eauto.
  apply mapM_is_Some_1 in Hs. exact Hs.
Qed.

Lemma deref_padHeap colChars table h body rows :
  body ⊆ table →
  deref h body = Some rows →
  deref (padHeap colChars table h) body = Some (map (padCells colChars) rows).
Proof.
  unfold deref. intros Hsub Hd. apply mapM_Some_1 in Hd. apply mapM_Some_2.
  induction Hd as [|l row body rows Hl Hd IH]; simpl; constructor.
  - rewrite padHeap_lookup, Hl. simpl. f_equal.
    rewrite decide_True; [done | set_solver].
  - apply IH. set_solver.
Qed.

(** [formatTable] on a non-empty table returns the text of the rows the
    table points to, and leaves the rows of the table padded. *)
Lemma formatTable_deref h header body hrow brows :
  deref h (header :: body) = Some (hrow :: brows) →
  formatTable (header :: body) h =
    Some (render hrow brows,
          padHeap (measureRows (hrow :: brows) (replicate (length hrow) (Num 0)))
                  (header :: body) h).
Proof.
  intros Hd.
  pose proof (deref_allocated _ _ _ Hd) as Hall.
  pose proof Hd as Hd'. unfold deref in Hd'. apply mapM_Some_1 in Hd'.
  inversion Hd' as [|???? Hh Hb]; subst. apply mapM_Some_2 in Hb.
  unfold formatTable. rewrite Hh. cbn [mbind option_bind].
  rewrite (measureTable_deref _ _ _ _ Hd). cbn [mbind option_bind].
  rewrite padTable_spec by done. cbn [mbind option_bind].
  rewrite padHeap_lookup, Hh. cbn [mbind option_bind fmap option_fmap option_map].
  rewrite decide_True by set_solver.
  fold (deref (padHeap (measureRows (hrow :: brows)
    (replicate (length hrow) (Num 0))) (header :: body) h) body).
  erewrite deref_padHeap; [| set_solver | exact Hb]. cbn [mbind option_bind].
  unfold render. by rewrite map_map.
Qed.

Lemma deref_nonempty h table header body :
  deref h table = Some (header :: body) → ∃ l ls, table = l :: ls.
Proof.
  intros Hd. apply mapM_Some_1 in Hd. inversion Hd; subst. eauto.
Qed.

(** The text of a non-empty table starts with a bar. *)
Lemma formatTable_starts_with_bar l ls h text h' :
  formatTable (l :: ls) h = Some (text, h') → ∃ s, text = String "|" s.
Proof.
  unfold formatTable. intros H.
  destruct (h !! l) as [hrow|]; [|done]. cbn [mbind option_bind] in H.
  destruct (measureTable _ _ _) as [cc|]; [|done]. cbn [mbind option_bind] in H.
  destruct (padTable _ _ _) as [h1|]; [|done]. cbn [mbind option_bind] in H.
  destruct (h1 !! l) as [hcells|]; [|done]. cbn [mbind option_bind] in H.
  destruct (mapM _ _) as [brows|]; [|done]. cbn [mbind option_bind] in H.
  injection H as <- _. eexists. reflexivity.
Qed.

(** ** The claims about [formatTable] *)

(** C4.  [formatTable] of a table without rows is exactly the text
    [**No data**], and no table with a row is rendered as that text. *)
Theorem formatTable_no_data (table : list loc) (h : gmap loc (list string)) :
  fst <$> formatTable table h = Some "**No data**" ↔ table = [].
Proof.
  split.
  - destruct table as [|l ls]; [done|]. intros H.
    destruct (formatTable (l :: ls) h) as [[text h']|] eqn:Hf; [|done].
    apply formatTable_starts_with_bar in Hf as [s ->]. simpl in H. congruence.
  - intros ->. reflexivity.
Qed.

(** C10.  [formatTable] returns a text for every table whose rows exist:
    the empty table, and tables with rows shorter or longer than the header,
    included.  There is no failure. *)
Theorem formatTable_total (table : list loc) (h : gmap loc (list string)) :
  Forall (λ l, is_Some (h !! l)) table →
  ∃ text h', formatTable table h = Some (text, h').
Proof.
  intros Hall. destruct table as [|l ls]; [by eexists _, _|].
  destruct (mapM_is_Some_2 (λ l, h !! l) (l :: ls) Hall) as [rows Hrows].
  destruct rows as [|hrow brows].
  { apply length_mapM in Hrows. done. }
  eexists _, _. by apply formatTable_deref.
Qed.


(** C5.  A table that has a header row and nothing else is rendered as the
    header line and the line of dashes, joined by one newline; it is not the
    empty table. *)
Theorem formatTable_header_only (h : gmap loc (list string)) (l : loc) :
  h !! l = Some ["A"; "B"] →
  fst <$> formatTable [l] h = Some "| A | B |
| - | - |".
Proof.
  intros Hl.
  rewrite (formatTable_deref h l [] ["A"; "B"] []).
  - reflexivity.
  - unfold deref. simpl. by rewrite Hl.
Qed.

(** C6, as the code has it.  The second column of the worked example is 14
    wide, the length of its longest cell [a longer value]. *)
Theorem formatTable_worked_example (h : gmap loc (list string)) (l1 l2 : loc) :
  h !! l1 = Some ["Title"; "Description"] →
  h !! l2 = Some ["x"; "a longer value"] →
  fst <$> formatTable [l1; l2] h = Some "| Title | Description    |
| ----- | -------------- |
| x     | a longer value |".
Proof.
  intros H1 H2.
  rewrite (formatTable_deref h l1 [l2] ["Title"; "Description"]
             [["x"; "a longer value"]]).
  - reflexivity.
  - unfold deref. simpl. by rewrite H1, H2.
Qed.

(** C6, as the specification prints it: that text is not what the call
    returns. *)
Lemma formatTable_worked_example_spec_text :
  fst <$> formatTable [0; 1] exampleTitles ≠ Some "| Title | Description     |
| ----- | ---------------- |
| x     | a longer value  |".
Proof. vm_compute. congruence. Qed.

(** ** The effect of [formatTable] on its argument *)

Lemma cellLength_le_columnWidth rows row i :
  row ∈ rows → cellLength row i ≤ columnWidth rows i.
Proof.
  intros Hrow. unfold columnWidth. apply max_list_elem_of_le.
  apply list_elem_of_fmap. eauto.
Qed.

(** After the second pass the columns of the header are as wide as before. *)
Lemma columnWidth_padded header body i :
  let rows := header :: body in
  let colChars := measureRows rows (replicate (length header) (Num 0)) in
  i < length header →
  columnWidth (map (padCells colChars) rows) i = columnWidth rows i.
Proof.
  intros rows colChars Hi.
  assert (∀ row, row ∈ rows →
            cellLength (padCells colChars row) i
            = if decide (i < length row) then columnWidth rows i else 0) as Hcell.
  { intros row Hrow. unfold cellLength. rewrite padCells_lookup.
    pose proof (cellLength_le_columnWidth rows row i Hrow) as Hle.
    unfold cellLength in Hle.
    destruct (row !! i) as [col|] eqn:Hcol; simpl in *.
    - apply lookup_lt_Some in Hcol as Hlt. rewrite decide_True by done.
      rewrite length_padCell. unfold JS.get_index, colChars, rows.
      rewrite measureRows_header by done. simpl. fold rows. lia.
    - apply lookup_ge_None in Hcol. rewrite decide_False by lia. done. }
  apply Nat.le_antisymm.
  - pose proof (max_list_elem_of (map (λ row, cellLength row i)
                  (map (padCells colChars) rows))) as Hin.
    unfold columnWidth at 1.
    apply list_elem_of_fmap in Hin as (row' & -> & Hrow'); [|done].
    apply list_elem_of_fmap in Hrow' as (row & -> & Hrow).
    rewrite Hcell by done. case_decide; lia.
  - assert (cellLength (padCells colChars header) i = columnWidth rows i) as Hh.
    { rewrite Hcell by (unfold rows; set_solver). by rewrite decide_True. }
    rewrite <- Hh at 1. apply cellLength_le_columnWidth.
    unfold rows. simpl. set_solver.
Qed.

Lemma lengths_padCells colChars (rows : list (list string)) :
  length <$> map (padCells colChars) rows = length <$> rows.
Proof.
  induction rows as [|row rows IH]; [done|].
  simpl. rewrite length_padCells. by f_equal.
Qed.

(** Measuring the padded rows gives the widths that padded them. *)
Lemma measureRows_padded header body :
  let rows := header :: body in
  let colChars := measureRows rows (replicate (length header) (Num 0)) in
  measureRows (map (padCells colChars) rows)
    (replicate (length (padCells colChars header)) (Num 0)) = colChars.
Proof.
  intros rows colChars. rewrite length_padCells.
  apply list_eq; intros i.
  destruct (decide (i < length header)) as [Hi|Hi].
  - change (map (padCells colChars) rows)
      with (padCells colChars header :: map (padCells colChars) body).
    rewrite (measureRows_lookup_num _ _ _ 0) by by apply lookup_replicate_2.
    unfold colChars at 3, rows. rewrite measureRows_header by done.
    simpl max. do 2 f_equal. by apply columnWidth_padded.
  - set (cc0 := replicate (length header) (Num 0)).
    assert (cc0 !! i = None ∨ cc0 !! i = Some NaN) as H0.
    { left. apply lookup_ge_None_2. unfold cc0. rewrite length_replicate. lia. }
    assert (length (measureRows (map (padCells colChars) rows) cc0)
            = length colChars) as Hlen.
    { unfold colChars. rewrite !measureRows_length.
      by rewrite lengths_padCells. }
    assert (colChars !! i = None ∨ colChars !! i = Some NaN) as Hcc
      by apply (measureRows_lookup_nan rows cc0 i H0).
    destruct (measureRows_lookup_nan (map (padCells colChars) rows) cc0 i H0)
      as [H1|H1];
    destruct Hcc as [H2|H2]; rewrite H1, H2; try done.
    + apply lookup_ge_None in H1. apply lookup_lt_Some in H2. lia.
    + apply lookup_lt_Some in H1. apply lookup_ge_None in H2. lia.
Qed.

Lemma padHeap_idemp colChars table (h : gmap loc (list string)) :
  padHeap colChars table (padHeap colChars table h) = padHeap colChars table h.
Proof.
  apply map_eq; intros l. rewrite !padHeap_lookup.
  destruct (h !! l); simpl; [|done]. f_equal.
  case_decide; [apply padCells_idemp | done].
Qed.

Lemma render_padded header body :
  let colChars :=
    measureRows (header :: body) (replicate (length header) (Num 0)) in
  render (padCells colChars header) (map (padCells colChars) body)
  = render header body.
Proof.
  intros colChars. unfold render. cbv zeta.
  pose proof (measureRows_padded header body) as Hm.
  cbv zeta in Hm. cbn [map] in Hm. fold colChars in Hm. rewrite Hm.
  rewrite padCells_idemp, map_map. do 3 f_equal.
  apply map_ext. intros row. by rewrite padCells_idemp.
Qed.

Lemma deref_empty h table : deref h table = Some [] → table = [].
Proof. intros Hd. apply length_mapM in Hd. by destruct table. Qed.

(** C3, as the code has it.  The text returned depends on the contents of
    the rows only, and nothing outside the rows of the table is touched; but
    the rows of the table are written: after the call every row of the table
    holds as many cells as before, and holds at [i] the cell it held there
    with spaces added up to the width of column [i], the largest cell length
    at [i] over all rows, when [i] is a column of the header, and the cell
    as it was beyond the header.  A second call on the same table returns
    the same text and writes nothing new. *)
Theorem formatTable_effect (h : gmap loc (list string)) (table : list loc)
    (rows : list (list string)) (text : string) (h' : gmap loc (list string)) :
  deref h table = Some rows →
  formatTable table h = Some (text, h') →
  (∀ h2 table2, deref h2 table2 = Some rows →
     fst <$> formatTable table2 h2 = Some text) ∧
  (∀ l, l ∉ table → h' !! l = h !! l) ∧
  (∃ rows', deref h' table = Some rows' ∧
     Forall2 (λ row row',
        length row' = length row ∧
        ∀ i col, row !! i = Some col →
          row' !! i = Some (paddedCell rows i col) ∧
          String.length (paddedCell rows i col)
            = if decide (i < headerLength rows) then columnWidth rows i
              else String.length col) rows rows') ∧
  formatTable table h' = Some (text, h').
Proof.
  intros Hd Hf. destruct rows as [|hrow brows].
  - apply deref_empty in Hd as ->. simpl in Hf. simplify_eq.
    repeat split; [| by exists []].
    intros h2 table2 Hd2. by apply deref_empty in Hd2 as ->.
  - destruct (deref_nonempty _ _ _ _ Hd) as (l & ls & ->).
    rewrite (formatTable_deref _ _ _ _ _ Hd) in Hf. simplify_eq.
    set (colChars := measureRows (hrow :: brows)
                       (replicate (length hrow) (Num 0))).
    assert (deref (padHeap colChars (l :: ls) h) (l :: ls)
            = Some (map (padCells colChars) (hrow :: brows))) as Hd'.
    { by apply deref_padHeap. }
    split; [|split; [|split]].
    + intros h2 table2 Hd2.
      destruct (deref_nonempty _ _ _ _ Hd2) as (l2 & ls2 & ->).
      by rewrite (formatTable_deref _ _ _ _ _ Hd2).
    + intros l0 Hl0. rewrite padHeap_lookup.
      destruct (h !! l0); simpl; [|done]. by rewrite decide_False.
    + eexists. split; [exact Hd'|].
      apply Forall2_fmap_r, Forall_Forall2_diag, Forall_forall.
      intros row Hrow. split; [apply length_padCells|].
      intros i col Hcol. unfold paddedCell. cbn [headerLength].
      destruct (decide (i < length hrow)) as [Hi|Hi].
      * rewrite padCells_lookup, Hcol. cbn [fmap option_fmap option_map].
        rewrite padCell_eq. unfold JS.get_index, colChars.
        rewrite measureRows_header by done.
        cbn [JS.ToNumber default JS.ToLength]. split; [done|].
        rewrite length_append, length_repeat_char.
        pose proof (cellLength_le_columnWidth (hrow :: brows) row i Hrow)
          as Hle.
        unfold cellLength in Hle. rewrite Hcol in Hle. simpl in Hle. lia.
      * unfold colChars. rewrite padCells_beyond by lia. done.
    + cbn [map] in Hd'. rewrite (formatTable_deref _ _ _ _ _ Hd').
      pose proof (measureRows_padded hrow brows) as Hm.
      cbv zeta in Hm. cbn [map] in Hm. fold colChars in Hm. rewrite Hm.
      unfold colChars. by rewrite render_padded, padHeap_idemp.
Qed.

(** C3, as the specification states it, fails: the call on the worked
    example leaves the header row padded. *)
Lemma formatTable_changes_input : ¬ inputUnchanged [0; 1] exampleTitles.
Proof.
  intros H.
  destruct (formatTable [0; 1] exampleTitles) as [[text h']|] eqn:Hf.
  - specialize (H _ _ eq_refl).
    vm_compute in Hf. injection Hf as _ <-. vm_compute in H. congruence.
  - vm_compute in Hf. congruence.
Qed.

(** ** Fields and lines of the rendered text *)

Lemma occurs_app c s t : occurs c (s +:+ t) = occurs c s + occurs c t.
Proof.
  induction s as [|x s IH]; [done|]. rewrite app_cons. simpl. rewrite IH. lia.
Qed.

Lemma occurs_repeat_char c x n : x ≠ c → occurs c (JS.repeat_char x n) = 0.
Proof.
  intros Hne. induction n as [|n IH]; simpl; [done|].
  rewrite IH. by destruct (Ascii.eqb_spec x c).
Qed.

Lemma occurs_padCell c colChars i col :
  " "%char ≠ c → occurs c (padCell colChars i col) = occurs c col.
Proof.
  intros Hne. rewrite padCell_eq, occurs_app, occurs_repeat_char by done. lia.
Qed.

Lemma occurs_padCells c colChars row :
  " "%char ≠ c →
  Forall (λ col, occurs c col = 0) row →
  Forall (λ col, occurs c col = 0) (padCells colChars row).
Proof.
  intros Hne Hrow. apply Forall_forall. intros cell Hcell.
  apply elem_of_lookup_imap_1 in Hcell as (i & col & -> & Hcol).
  rewrite occurs_padCell by done.
  eapply Forall_forall in Hrow; [exact Hrow|]. by eapply list_elem_of_lookup_2.
Qed.

Lemma occurs_join c sep cells :
  Forall (λ col, occurs c col = 0) cells →
  occurs c (JS.join sep cells) = (length cells - 1) * occurs c sep.
Proof.
  induction 1 as [|col cells Hcol Hcells IH]; [done|].
  destruct cells as [|col' cells]; [simpl; lia|].
  change (JS.join sep (col :: col' :: cells))
    with (col +:+ sep +:+ JS.join sep (col' :: cells)).
  rewrite !occurs_app, IH, Hcol. simpl. lia.
Qed.

Lemma occurs_line c cells :
  Forall (λ col, occurs c col = 0) cells →
  occurs c (line cells) =
  occurs c "| " + (length cells - 1) * occurs c " | " + occurs c " |".
Proof.
  intros Hcells. unfold line. rewrite !occurs_app, occurs_join by done. lia.
Qed.

Lemma length_splitOn c s : length (splitOn c s) = S (occurs c s).
Proof.
  induction s as [|x s IH]; simpl; [done|].
  destruct (Ascii.eqb x c); simpl; [by rewrite IH|].
  destruct (splitOn c s); simpl in *; lia.
Qed.

(** A line of [n] cells, [n] at least 1, without a bar in them has [n]
    fields. *)
Lemma fields_line cells :
  cells ≠ [] →
  Forall (λ col, occurs "|" col = 0) cells →
  fields (line cells) = length cells.
Proof.
  intros Hne Hcells. unfold fields.
  rewrite length_splitOn, occurs_line by done.
  destruct cells; [done|]. simpl. lia.
Qed.

Lemma splitOn_plain c s : occurs c s = 0 → splitOn c s = [s].
Proof.
  induction s as [|x s IH]; simpl; [done|].
  destruct (Ascii.eqb x c); [done|]. intros Hs. by rewrite IH.
Qed.

Lemma splitOn_app c s t :
  occurs c s = 0 → splitOn c (s +:+ String c t) = s :: splitOn c t.
Proof.
  induction s as [|x s IH]; intros Hs.
  - rewrite app_empty_l. simpl. by rewrite Ascii.eqb_refl.
  - rewrite app_cons. simpl in *.
    destruct (Ascii.eqb x c); [done|]. by rewrite IH.
Qed.

(** Splitting the joined lines gives the lines back, when no line holds a
    newline. *)
Lemma splitOn_join c lines :
  lines ≠ [] →
  Forall (λ ln, occurs c ln = 0) lines →
  splitOn c (JS.join (String c "") lines) = lines.
Proof.
  intros Hne Hall. induction Hall as [|ln lines Hln Hlines IH]; [done|].
  destruct lines as [|ln' lines]; [by apply splitOn_plain|].
  change (JS.join (String c "") (ln :: ln' :: lines))
    with (ln +:+ String c "" +:+ JS.join (String c "") (ln' :: lines)).
  change (String c "" +:+ ?t) with (String c t).
  rewrite splitOn_app by done. f_equal. by apply IH.
Qed.

Lemma occurs_dashes c colChars :
  "-"%char ≠ c →
  Forall (λ col, occurs c col = 0) (map (JS.repeat "-"%char) colChars).
Proof.
  intros Hne. apply Forall_forall. intros cell Hcell.
  apply list_elem_of_fmap in Hcell as (w & -> & _).
  by apply occurs_repeat_char.
Qed.

Lemma line_no_newline cells :
  Forall (λ col, occurs "010" col = 0) cells → occurs "010" (line cells) = 0.
Proof. intros Hcells. rewrite occurs_line by done. simpl. lia. Qed.

(** C2, as the code has it.  When every row has a cell and no cell holds a
    bar or a newline, the header line has as many fields as the header has
    cells and each body line has as many fields as its own row has cells:
    a shorter row gets no empty cells added. *)
Theorem formatTable_fields (h : gmap loc (list string)) (table : list loc)
    (header : list string) (body : list (list string)) :
  deref h table = Some (header :: body) →
  Forall (λ row, row ≠ [] ∧ Forall plainCell row) (header :: body) →
  ∃ text h' hline sline blines,
    formatTable table h = Some (text, h') ∧
    textLines text = hline :: sline :: blines ∧
    fields hline = length header ∧
    Forall2 (λ ln row, fields ln = length row) blines body.
Proof.
  intros Hd Hplain. destruct (deref_nonempty _ _ _ _ Hd) as (l & ls & ->).
  set (colChars := measureRows (header :: body)
                     (replicate (length header) (Num 0))).
  assert (∀ row, row ∈ header :: body →
            fields (line (padCells colChars row)) = length row ∧
            occurs "010" (line (padCells colChars row)) = 0) as Hrow.
  { intros row Hin. eapply Forall_forall in Hplain as [Hne Hcells]; [|exact Hin].
    split.
    - rewrite fields_line, length_padCells; [done | |].
      + intros Hnil. apply (f_equal length) in Hnil.
        rewrite length_padCells in Hnil. by destruct row.
      + apply occurs_padCells; [done|].
        eapply Forall_impl; [exact Hcells|]. by intros col [? ?].
    - apply line_no_newline, occurs_padCells; [done|].
      eapply Forall_impl; [exact Hcells|]. by intros col [? ?]. }
  eexists _, _, _, _, _. split; [by apply formatTable_deref|].
  split; [|split].
  - unfold textLines, render. fold colChars. apply splitOn_join; [done|].
    apply Forall_cons_2; [|apply Forall_cons_2].
    + apply (Hrow header), list_elem_of_here.
    + by apply line_no_newline, occurs_dashes.
    + apply Forall_forall. intros ln Hln.
      apply list_elem_of_fmap in Hln as (row & -> & Hin).
      by apply (Hrow row), list_elem_of_further.
  - apply (Hrow header), list_elem_of_here.
  - apply Forall2_fmap_l, Forall_Forall2_diag, Forall_forall.
    intros row Hin. by apply (Hrow row), list_elem_of_further.
Qed.

(** C2, as the specification states it, fails: the line of a row with one
    cell under a header with two has one field. *)
Lemma short_row_is_not_filled : ¬ fieldsAsHeader [0; 1] exampleShortRow.
Proof.
  intros H.
  destruct (formatTable [0; 1] exampleShortRow) as [[text h']|] eqn:Hf.
  - specialize (H _ _ ["A"; "B"] eq_refl eq_refl 2 "| x |").
    vm_compute in Hf. injection Hf as <- _.
    specialize (H eq_refl). vm_compute in H. lia.
  - vm_compute in Hf. congruence.
Qed.

(** ** [markdownEscape] *)

(** [replaceAll] with a pattern of one character replaces that character
    wherever it stands. *)
Lemma replaceAll_char s c rep :
  replaceAll s (String c "") rep = substitute (replaceChar c rep) s.
Proof.
  unfold replaceAll. induction s as [|x s IH]; [done|].
  cbn [replaceAll_from substitute String.prefix String.length Nat.sub].
  rewrite IH.
  assert (replaceChar c rep x = if ascii_dec c x then rep else String x "") as ->.
  { unfold replaceChar.
    destruct (Ascii.eqb_spec x c), (ascii_dec c x); congruence. }
  destruct (ascii_dec c x); [by destruct s | done].
Qed.

Lemma substitute_app f s t :
  substitute f (s +:+ t) = substitute f s +:+ substitute f t.
Proof.
  induction s as [|x s IH]; [done|].
  rewrite app_cons. simpl. by rewrite IH, app_assoc_string.
Qed.

Lemma substitute_substitute f g s :
  substitute g (substitute f s) = substitute (λ c, substitute g (f c)) s.
Proof.
  induction s as [|x s IH]; [done|].
  simpl. by rewrite substitute_app, IH.
Qed.

Lemma substitute_ext f g s : (∀ c, f c = g c) → substitute f s = substitute g s.
Proof. intros Hfg. induction s as [|x s IH]; [done|]. simpl. by rewrite Hfg, IH. Qed.

(** The four steps, in their order, on one character. *)
Lemma entity_steps c :
  substitute (replaceChar "|" "&vert;")
    (substitute (replaceChar ">" "&gt;")
       (substitute (replaceChar "<" "&lt;")
          (replaceChar "&" "&amp;" c)))
  = entity c.
Proof. destruct c as [[] [] [] [] [] [] [] []]; reflexivity. Qed.

(** C7.  [markdownEscape] applies the four replacements in the order [&],
    [<], [>], [|], and the result is the text in which every [&], [<], [>]
    and [|] of the input stands as its entity, once, every other character
    as itself: the [&] of an entity is not escaped again. *)
Theorem markdownEscape_entities (text : string) :
  markdownEscape text =
    replaceAll (replaceAll (replaceAll (replaceAll text
      "&" "&amp;") "<" "&lt;") ">" "&gt;") "|" "&vert;" ∧
  markdownEscape text = substitute entity text.
Proof.
  split; [reflexivity|].
  unfold markdownEscape. rewrite !replaceAll_char.
  rewrite (substitute_substitute (replaceChar "&" "&amp;")).
  rewrite (substitute_substitute _ (replaceChar ">" "&gt;")).
  rewrite (substitute_substitute _ (replaceChar "|" "&vert;")).
  apply substitute_ext, entity_steps.
Qed.

(** ** [generateMarkdown] *)

Lemma alloc_spec row (h h1 : gmap loc (list string)) l :
  alloc row h = (l, h1) → h !! l = None ∧ h1 = <[l := row]> h.
Proof.
  unfold alloc. cbv zeta. intros [= <- <-]. split; [|done].
  apply not_elem_of_dom, is_fresh.
Qed.

Lemma deref_weaken (h h2 : gmap loc (list string)) ls rows :
  h ⊆ h2 → deref h ls = Some rows → deref h2 ls = Some rows.
Proof.
  unfold deref. intros Hsub Hd. apply mapM_Some_1 in Hd. apply mapM_Some_2.
  eapply Forall2_impl; [exact Hd|]. intros l row Hl. simpl in *.
  by eapply lookup_weaken.
Qed.

(** New rows hold what they were made of, are new, and leave the rows that
    were there as they were. *)
Lemma allocRows_spec rows : ∀ (h h2 : gmap loc (list string)) ls,
  allocRows rows h = (ls, h2) →
  deref h2 ls = Some rows ∧ (∀ l, l ∈ ls → h !! l = None) ∧ h ⊆ h2.
Proof.
  induction rows as [|row rows IH]; intros h h2 ls Ha; cbn [allocRows] in Ha.
  { injection Ha as <- <-. split; [done|]. split; [|done].
    intros l Hl. by apply elem_of_nil in Hl. }
  destruct (alloc row h) as [l h1] eqn:Hl.
  destruct (allocRows rows h1) as [ls' h2'] eqn:Hrest.
  injection Ha as <- <-.
  apply alloc_spec in Hl as [Hfresh ->].
  destruct (IH _ _ _ Hrest) as (Hd & Hnew & Hsub).
  assert (h ⊆ <[l := row]> h) as Hsub0 by by apply insert_subseteq.
  split; [|split].
  - unfold deref in *. simpl.
    rewrite (lookup_weaken _ _ _ _ (lookup_insert_eq h l row) Hsub). simpl.
    by rewrite Hd.
  - intros l0 [->|Hl0]%elem_of_cons; [done|].
    apply Hnew in Hl0. destruct (h !! l0) as [r|] eqn:Hr; [|done].
    eapply lookup_weaken in Hr; [|exact Hsub0]. congruence.
  - by etrans.
Qed.


(** Rows that no table entry points to are read after the call as before. *)
Lemma deref_frame (h h' : gmap loc (list string)) (table ls : list loc) rows :
  (∀ l, l ∉ table → h' !! l = h !! l) →
  (∀ l, l ∈ ls → l ∉ table) →
  deref h ls = Some rows → deref h' ls = Some rows.
Proof.
  intros Hframe Hdisj Hd.
  unfold deref in *. apply mapM_Some_1 in Hd. apply mapM_Some_2.
  apply Forall2_same_length_lookup. split; [by eapply Forall2_length|].
  intros i l row Hl Hrow.
  rewrite Hframe by (apply Hdisj; by eapply list_elem_of_lookup_2).
  exact (Forall2_lookup_lr _ _ _ _ _ _ Hd Hl Hrow).
Qed.


(** ** The splice step *)

Lemma substring_all s : substring 0 (String.length s) s = s.
Proof. induction s as [|c s IH]; simpl; [done | by rewrite IH]. Qed.

Lemma prefix_split p : ∀ s,
  String.prefix p s = true →
  s = p +:+ substring (String.length p) (String.length s - String.length p) s.
Proof.
  induction p as [|a p IH]; intros s Hp.
  - rewrite app_empty_l. simpl. by rewrite Nat.sub_0_r, substring_all.
  - destruct s as [|b s]; [done|]. simpl in Hp.
    destruct (ascii_dec a b) as [->|]; [|done].
    rewrite app_cons. simpl. f_equal. by apply IH.
Qed.

Lemma matchMarker_sound names s name rest :
  matchMarker names s = Some (name, rest) → s = marker name +:+ rest.
Proof.
  induction names as [|n names IH]; [done|]. cbn [matchMarker].
  destruct (String.prefix (marker n) s) eqn:Hp; [|exact IH].
  intros [= <- <-]. by apply prefix_split.
Qed.

Lemma matchLazy_sound names : ∀ s mid name rest,
  matchLazy names s = Some (mid, name, rest) →
  s = mid +:+ marker name +:+ rest.
Proof.
  induction s as [|c s IH]; intros mid name rest; cbn [matchLazy].
  - destruct (matchMarker names "") as [[n r]|] eqn:Hm; [|done].
    intros [= <- <- <-]. by apply matchMarker_sound in Hm.
  - destruct (matchMarker names (String c s)) as [[n r]|] eqn:Hm.
    + intros [= <- <- <-]. by apply matchMarker_sound in Hm.
    + destruct (matchLazy names s) as [[[mid' n'] r']|] eqn:Hl; [|done].
      cbn [mbind option_bind]. intros [= <- <- <-].
      rewrite app_cons. f_equal. by apply IH.
Qed.

Lemma matchHere_sound names s m :
  matchHere names s = Some m → s = before m +:+ matched m +:+ after m.
Proof.
  unfold matchHere.
  destruct (matchMarker names s) as [[n1 rest]|] eqn:H1; [|done].
  cbn [mbind option_bind].
  destruct (matchLazy names rest) as [[[mid n2] tail]|] eqn:H2; [|done].
  cbn [mbind option_bind]. intros [= <-]. unfold matched. simpl.
  apply matchMarker_sound in H1 as ->. apply matchLazy_sound in H2 as ->.
  by rewrite !app_assoc_string.
Qed.

(** A match cuts the text in three. *)
Lemma regexExec_sound names : ∀ s m,
  regexExec names s = Some m → s = before m +:+ matched m +:+ after m.
Proof.
  induction s as [|c s IH]; intros m; cbn [regexExec].
  - destruct (matchHere names "") as [m'|] eqn:Hm; [|done].
    intros [= <-]. by apply (matchHere_sound names).
  - destruct (matchHere names (String c s)) as [m'|] eqn:Hm.
    + intros [= <-]. by apply (matchHere_sound names).
    + destruct (regexExec names s) as [m'|] eqn:He; [|done].
      cbn [mbind option_bind]. intros [= <-]. unfold matched. simpl.
      rewrite app_cons. f_equal. by apply IH.
Qed.

(** A replacement text without [$] is inserted as it is. *)
Lemma GetSubstitution_plain m captures s : ∀ t,
  occurs "$" s = 0 →
  GetSubstitution m captures (s +:+ t) = s +:+ GetSubstitution m captures t.
Proof.
  induction s as [|c s IH]; intros t Hs; [done|].
  rewrite !app_cons. simpl in Hs. cbn [GetSubstitution].
  destruct (Ascii.eqb c "$"); [done|]. simpl. f_equal. by apply IH.
Qed.

(** The two group references of the replacement text. *)
Lemma GetSubstitution_opening m c1 c2 t :
  GetSubstitution m [c1; c2] ("<!-- $1 -->" +:+ t)
  = marker c1 +:+ GetSubstitution m [c1; c2] t.
Proof. unfold marker. rewrite !app_assoc_string. reflexivity. Qed.

Lemma GetSubstitution_closing m c1 c2 :
  GetSubstitution m [c1; c2] "<!-- $2 -->" = marker c2.
Proof. reflexivity. Qed.

(** Where the table holds no [$], a region that already holds the table,
    between blank lines, is replaced by itself. *)
Lemma replaceMarkers_up_to_date names table raw m :
  regexExec names raw = Some m →
  between m = blankLine +:+ table +:+ blankLine →
  occurs "$" table = 0 →
  replaceMarkers names table raw = raw.
Proof.
  intros Hm Hmid Hplain. unfold replaceMarkers. rewrite Hm.
  rewrite (regexExec_sound _ _ _ Hm) at 1. f_equal.
  unfold matched. rewrite Hmid.
  rewrite GetSubstitution_opening.
  rewrite (GetSubstitution_plain _ _ blankLine) by done.
  rewrite (GetSubstitution_plain _ _ table) by done.
  rewrite (GetSubstitution_plain _ _ blankLine) by done.
  rewrite GetSubstitution_closing.
  by rewrite !app_assoc_string.
Qed.

(** X20.  The splice step on a README that is up to date: when the two
    regions hold the rendered tables between blank lines and neither table
    holds a [$], the text is unchanged and nothing is written. *)
Lemma generate_up_to_date packageJson commandsTable configsTable h' raw m1 m2 :
  generateMarkdown packageJson ∅ = Some ((commandsTable, configsTable), h') →
  regexExec ["commands"; "commands-table"] raw = Some m1 →
  between m1 = blankLine +:+ commandsTable +:+ blankLine →
  regexExec ["configs"; "configs-table"] raw = Some m2 →
  between m2 = blankLine +:+ configsTable +:+ blankLine →
  occurs "$" commandsTable = 0 →
  occurs "$" configsTable = 0 →
  generate packageJson raw = Some None.
Proof.
  intros Hg Hm1 Hb1 Hm2 Hb2 Hp1 Hp2. unfold generate. rewrite Hg.
  cbn [mbind option_bind fst snd]. unfold splice.
  rewrite (replaceMarkers_up_to_date _ _ _ _ Hm1 Hb1 Hp1).
  rewrite (replaceMarkers_up_to_date _ _ _ _ Hm2 Hb2 Hp2).
  by rewrite decide_True.
Qed.

(** C9 at a description that holds [$1].  The two regions of the README
    hold the rendered tables, between blank lines; the splice step reads the
    [$1] of the table as the first group of the match and puts [commands] in
    its place, so the text differs and the README is written. *)
Theorem generate_rewrites_dollar :
  fst <$> generateMarkdown exampleDollar ∅
    = Some ("| Title | Description |
| ----- | ----------- |
| `Pay` | costs $1    |", "**No data**") ∧
  (between <$> regexExec ["commands"; "commands-table"] exampleReadme)
    = Some (blankLine +:+ "| Title | Description |
| ----- | ----------- |
| `Pay` | costs $1    |" +:+ blankLine) ∧
  (between <$> regexExec ["configs"; "configs-table"] exampleReadme)
    = Some (blankLine +:+ "**No data**" +:+ blankLine) ∧
  generate exampleDollar exampleReadme = Some (Some
"<!-- commands -->

| Title | Description |
| ----- | ----------- |
| `Pay` | costs commands    |

<!-- commands -->
<!-- configs -->

**No data**

<!-- configs -->").
Proof. repeat split; vm_compute; reflexivity. Qed.

(** ** The theorems at concrete tables *)

Lemma formatTable_total_witness :
  Forall (λ l, is_Some (exampleJagged !! l)) [0; 1; 2] ∧
  ∃ text h', formatTable [0; 1; 2] exampleJagged = Some (text, h').
Proof.
  assert (Forall (λ l, is_Some (exampleJagged !! l)) [0; 1; 2]) as Hall.
  { repeat apply Forall_cons_2; try apply Forall_nil_2; by eexists. }
  split; [exact Hall|]. exact (formatTable_total [0; 1; 2] exampleJagged Hall).
Defined.


Lemma formatTable_header_only_witness :
  exampleHeaderOnly !! 0 = Some ["A"; "B"] ∧
  fst <$> formatTable [0] exampleHeaderOnly = Some "| A | B |
| - | - |".
Proof.
  assert (exampleHeaderOnly !! 0 = Some ["A"; "B"]) as Hl by reflexivity.
  split; [exact Hl|]. exact (formatTable_header_only exampleHeaderOnly 0 Hl).
Defined.

Lemma formatTable_worked_example_witness :
  exampleTitles !! 0 = Some ["Title"; "Description"] ∧
  exampleTitles !! 1 = Some ["x"; "a longer value"] ∧
  fst <$> formatTable [0; 1] exampleTitles = Some "| Title | Description    |
| ----- | -------------- |
| x     | a longer value |".
Proof.
  assert (exampleTitles !! 0 = Some ["Title"; "Description"]) as H0
    by reflexivity.
  assert (exampleTitles !! 1 = Some ["x"; "a longer value"]) as H1
    by reflexivity.
  split; [exact H0|]. split; [exact H1|].
  exact (formatTable_worked_example exampleTitles 0 1 H0 H1).
Defined.

Lemma formatTable_effect_witness :
  deref exampleTitles [0; 1]
    = Some [["Title"; "Description"]; ["x"; "a longer value"]] ∧
  formatTable [0; 1] exampleTitles = Some ("| Title | Description    |
| ----- | -------------- |
| x     | a longer value |", examplePadded) ∧
  (∀ l, l ∉ [0; 1] → examplePadded !! l = exampleTitles !! l) ∧
  formatTable [0; 1] examplePadded = Some ("| Title | Description    |
| ----- | -------------- |
| x     | a longer value |", examplePadded).
Proof.
  assert (deref exampleTitles [0; 1]
          = Some [["Title"; "Description"]; ["x"; "a longer value"]]) as Hd
    by (vm_compute; reflexivity).
  assert (formatTable [0; 1] exampleTitles = Some ("| Title | Description    |
| ----- | -------------- |
| x     | a longer value |", examplePadded)) as Hf
    by (vm_compute; reflexivity).
  split; [exact Hd|]. split; [exact Hf|].
  destruct (formatTable_effect _ _ _ _ _ Hd Hf) as (_ & Hframe & _ & Hagain).
  split; [exact Hframe | exact Hagain].
Defined.

Lemma formatTable_fields_witness :
  deref exampleShortRow [0; 1] = Some [["A"; "B"]; ["x"]] ∧
  Forall (λ row, row ≠ [] ∧ Forall plainCell row) [["A"; "B"]; ["x"]] ∧
  ∃ text h' hline sline blines,
    formatTable [0; 1] exampleShortRow = Some (text, h') ∧
    textLines text = hline :: sline :: blines ∧
    fields hline = length ["A"; "B"] ∧
    Forall2 (λ ln row, fields ln = length row) blines [["x"]].
Proof.
  assert (deref exampleShortRow [0; 1] = Some [["A"; "B"]; ["x"]]) as Hd
    by (vm_compute; reflexivity).
  assert (Forall (λ row, row ≠ [] ∧ Forall plainCell row)
            [["A"; "B"]; ["x"]]) as Hplain.
  { repeat apply Forall_cons_2; try apply Forall_nil_2;
      (split; [done|]);
      repeat apply Forall_cons_2; try apply Forall_nil_2; by split. }
  split; [exact Hd|]. split; [exact Hplain|].
  exact (formatTable_fields exampleShortRow [0; 1] ["A"; "B"] [["x"]] Hd Hplain).
Defined.


(** * Further properties of the script *)

(** ** [markdownEscape], character by character *)

(** [markdownEscape] replaces every character by its entity. *)
Lemma markdownEscape_substitute text :
  markdownEscape text = substitute entity text.
Proof.
  unfold markdownEscape. rewrite !replaceAll_char.
  rewrite (substitute_substitute (replaceChar "&" "&amp;")).
  rewrite (substitute_substitute _ (replaceChar ">" "&gt;")).
  rewrite (substitute_substitute _ (replaceChar "|" "&vert;")).
  apply substitute_ext, entity_steps.
Qed.

Lemma occurs_substitute c f s :
  (∀ x, occurs c (f x) = occurs c (String x "")) →
  occurs c (substitute f s) = occurs c s.
Proof.
  intros Hf. induction s as [|x s IH]; [done|].
  cbn [substitute]. rewrite occurs_app, Hf, IH. simpl. lia.
Qed.

Lemma occurs_substitute_0 c f s :
  (∀ x, occurs c (f x) = 0) → occurs c (substitute f s) = 0.
Proof.
  intros Hf. induction s as [|x s IH]; [done|].
  cbn [substitute]. by rewrite occurs_app, Hf, IH.
Qed.

(** X1.  The escaped text holds no [<], no [>] and no [|]: whatever the
    description, its cell cannot open a tag or close a table cell. *)
Theorem markdownEscape_no_markup (text : string) :
  occurs "<" (markdownEscape text) = 0 ∧
  occurs ">" (markdownEscape text) = 0 ∧
  occurs "|" (markdownEscape text) = 0.
Proof.
  rewrite markdownEscape_substitute.
  repeat split; apply occurs_substitute_0;
    intros x; destruct x as [[] [] [] [] [] [] [] []]; reflexivity.
Qed.

(** The entity of a character: the character itself, which then is not [&],
    or one of the four entities, which start with [&] and differ in their
    second character. *)
Lemma entity_cases c :
  (entity c = String c "" ∧ c ≠ "&"%char) ∨
  (c = "&"%char ∧ entity c = "&amp;") ∨
  (c = "<"%char ∧ entity c = "&lt;") ∨
  (c = ">"%char ∧ entity c = "&gt;") ∨
  (c = "|"%char ∧ entity c = "&vert;").
Proof.
  destruct c as [[] [] [] [] [] [] [] []];
    first [ left; split; [reflexivity | discriminate]
          | right; left; split; reflexivity
          | right; right; left; split; reflexivity
          | right; right; right; left; split; reflexivity
          | right; right; right; right; split; reflexivity ].
Qed.

Lemma substitute_entity_inj s : ∀ t,
  substitute entity s = substitute entity t → s = t.
Proof.
  induction s as [|c s IH]; intros [|d t] H; cbn [substitute] in H.
  - done.
  - destruct (entity_cases d) as [[E _]|[[_ E]|[[_ E]|[[_ E]|[_ E]]]]];
      rewrite E in H; discriminate H.
  - destruct (entity_cases c) as [[E _]|[[_ E]|[[_ E]|[[_ E]|[_ E]]]]];
      rewrite E in H; discriminate H.
  - destruct (entity_cases c) as [[Ec Hc]|[[-> Ec]|[[-> Ec]|[[-> Ec]|[-> Ec]]]]];
    destruct (entity_cases d) as [[Ed Hd]|[[-> Ed]|[[-> Ed]|[[-> Ed]|[-> Ed]]]]];
      rewrite ?Ec, ?Ed in H; rewrite ?app_cons, ?app_empty_l in H;
      try discriminate H;
      simplify_eq; try done; f_equal; by apply IH.
Qed.

(** X2.  Escaping loses nothing: two different descriptions have different
    escaped texts. *)
Theorem markdownEscape_inj (s t : string) :
  s ≠ t → markdownEscape s ≠ markdownEscape t.
Proof.
  intros Hne Heq. apply Hne. rewrite !markdownEscape_substitute in Heq.
  by apply substitute_entity_inj.
Qed.

Lemma markdownEscape_inj_witness :
  "<" ≠ "&lt;" ∧ markdownEscape "<" ≠ markdownEscape "&lt;".
Proof.
  assert ("<" ≠ "&lt;") as Hne by discriminate.
  split; [exact Hne|]. exact (markdownEscape_inj "<" "&lt;" Hne).
Defined.

Lemma length_entity c :
  String.length (entity c) =
  1 + 4 * occurs "&" (String c "") + 3 * occurs "<" (String c "")
    + 3 * occurs ">" (String c "") + 5 * occurs "|" (String c "").
Proof. destruct c as [[] [] [] [] [] [] [] []]; reflexivity. Qed.

Lemma occurs_cons c x s :
  occurs c (String x s) = occurs c (String x "") + occurs c s.
Proof. simpl. lia. Qed.

Lemma length_substitute_entity text :
  String.length (substitute entity text) =
  String.length text + 4 * occurs "&" text + 3 * occurs "<" text
    + 3 * occurs ">" text + 5 * occurs "|" text.
Proof.
  induction text as [|c text IH]; [done|].
  cbn [substitute]. rewrite length_append, length_entity, IH.
  rewrite (occurs_cons "&" c text), (occurs_cons "<" c text),
    (occurs_cons ">" c text), (occurs_cons "|" c text).
  cbn [String.length]. lia.
Qed.

(** X3.  The escaped text is longer than the text by 4 for every [&], 3 for
    every [<] and every [>], and 5 for every [|]. *)
Theorem markdownEscape_length (text : string) :
  String.length (markdownEscape text) =
  String.length text + 4 * occurs "&" text + 3 * occurs "<" text
    + 3 * occurs ">" text + 5 * occurs "|" text.
Proof.
  rewrite markdownEscape_substitute. apply length_substitute_entity.
Qed.

Lemma substitute_plain text :
  occurs "&" text = 0 → occurs "<" text = 0 →
  occurs ">" text = 0 → occurs "|" text = 0 →
  substitute entity text = text.
Proof.
  induction text as [|c text IH]; [done|].
  rewrite (occurs_cons "&" c text), (occurs_cons "<" c text),
    (occurs_cons ">" c text), (occurs_cons "|" c text).
  intros Ha Hl Hg Hb. cbn [substitute]. rewrite IH by lia.
  destruct (entity_cases c) as [[E _]|[[-> _]|[[-> _]|[[-> _]|[-> _]]]]];
    [by rewrite E | simpl in *; lia ..].
Qed.

(** X4.  A text is left as it is exactly when it holds none of the four
    characters. *)
Theorem markdownEscape_unchanged (text : string) :
  markdownEscape text = text ↔
  occurs "&" text = 0 ∧ occurs "<" text = 0 ∧
  occurs ">" text = 0 ∧ occurs "|" text = 0.
Proof.
  split.
  - intros H. apply (f_equal String.length) in H.
    rewrite markdownEscape_substitute, length_substitute_entity in H. lia.
  - intros (Ha & Hl & Hg & Hb). rewrite markdownEscape_substitute.
    by apply substitute_plain.
Qed.

(** X5.  Escaping a text made of two parts is escaping the parts. *)
Theorem markdownEscape_app (s t : string) :
  markdownEscape (s +:+ t) = markdownEscape s +:+ markdownEscape t.
Proof. rewrite !markdownEscape_substitute. apply substitute_app. Qed.

(** ** [formatTable]: the shape of the text *)

Lemma length_join sep cells :
  String.length (JS.join sep cells) =
  sum_list (String.length <$> cells) + (length cells - 1) * String.length sep.
Proof.
  induction cells as [|col cells IH]; [done|].
  destruct cells as [|col' cells]; [simpl; lia|].
  change (JS.join sep (col :: col' :: cells))
    with (col +:+ sep +:+ JS.join sep (col' :: cells)).
  rewrite !length_append, IH. simpl. lia.
Qed.

Lemma length_line cells :
  String.length (line cells) =
  4 + sum_list (String.length <$> cells) + 3 * (length cells - 1).
Proof. unfold line. rewrite !length_append, length_join. simpl. lia. Qed.

(** The cells of a row as long as the header, after padding, are as wide as
    the columns. *)
Lemma lengths_padded_row header body row :
  let rows := header :: body in
  let colChars := measureRows rows (replicate (length header) (Num 0)) in
  row ∈ rows → length row = length header →
  String.length <$> padCells colChars row
  = columnWidth rows <$> seq 0 (length header).
Proof.
  intros rows colChars Hin Hlen. apply list_eq; intros i.
  rewrite !list_lookup_fmap, padCells_lookup.
  destruct (decide (i < length header)) as [Hi|Hi].
  - rewrite lookup_seq_lt by done.
    destruct (row !! i) as [col|] eqn:Hcol.
    2: { apply lookup_ge_None in Hcol. lia. }
    cbn [fmap option_fmap option_map]. f_equal.
    rewrite length_padCell. unfold JS.get_index, colChars, rows.
    rewrite measureRows_header by done.
    cbn [JS.ToNumber default JS.ToLength id Nat.add].
    pose proof (cellLength_le_columnWidth rows row i Hin) as Hle.
    unfold cellLength in Hle. rewrite Hcol in Hle. simpl in Hle.
    fold rows. lia.
  - rewrite lookup_seq_ge by lia.
    rewrite (lookup_ge_None_2 row) by lia. done.
Qed.

(** The runs of dashes, when no row is longer than the header. *)
Lemma lengths_dashes header body :
  let rows := header :: body in
  let colChars := measureRows rows (replicate (length header) (Num 0)) in
  Forall (λ row, length row ≤ length header) body →
  String.length <$> map (JS.repeat "-"%char) colChars
  = columnWidth rows <$> seq 0 (length header).
Proof.
  intros rows colChars Hle. apply list_eq; intros i.
  rewrite !list_lookup_fmap.
  assert (length colChars = length header) as Hcc.
  { unfold colChars. rewrite measureRows_length, length_replicate.
    assert (max_list (length <$> rows) ≤ length header); [|lia].
    unfold rows. rewrite fmap_cons.
    change (max_list (length header :: (length <$> body)))
      with (length header `max` max_list (length <$> body)).
    assert (max_list (length <$> body) ≤ length header); [|lia].
    clear -Hle. induction Hle as [|row body Hrow _ IH]; [simpl; lia|].
    rewrite fmap_cons.
    change (max_list (length row :: (length <$> body)))
      with (length row `max` max_list (length <$> body)). lia. }
  destruct (decide (i < length header)) as [Hi|Hi].
  - rewrite lookup_seq_lt by done. unfold colChars, rows.
    rewrite measureRows_header by done.
    cbn [fmap option_fmap option_map]. f_equal.
    unfold JS.repeat. cbn [JS.ToLength Nat.add]. apply length_repeat_char.
  - rewrite lookup_seq_ge by lia.
    rewrite (lookup_ge_None_2 colChars) by lia. done.
Qed.

(** X6.  A table whose rows all have as many cells as the header is
    rendered in lines of one and the same length: 4 for the outer bars and
    spaces, the widths of the columns, and 3 for every inner separator.  The
    text has a line for the header, one for the dashes and one per body row. *)
Theorem formatTable_aligned (h : gmap loc (list string)) (table : list loc)
    (header : list string) (body : list (list string)) :
  deref h table = Some (header :: body) →
  Forall (λ row, length row = length header) body →
  ∃ lines h',
    formatTable table h = Some (JS.join (String "010" "") lines, h') ∧
    length lines = 2 + length body ∧
    ∀ ln, ln ∈ lines →
      String.length ln =
      4 + sum_list (columnWidth (header :: body) <$> seq 0 (length header))
        + 3 * (length header - 1).
Proof.
  intros Hd Hrect. destruct (deref_nonempty _ _ _ _ Hd) as (l & ls & ->).
  eexists _, _. split; [by apply formatTable_deref|].
  split; [simpl; by rewrite length_map|].
  assert (∀ row, row ∈ header :: body → length row = length header) as Hlen.
  { intros row [->|Hin]%elem_of_cons; [done|].
    eapply Forall_forall in Hrect; [exact Hrect | done]. }
  intros ln [->|[->|Hin]%elem_of_cons]%elem_of_cons.
  - rewrite length_line, length_padCells.
    by rewrite (lengths_padded_row header body header)
      by (done || apply list_elem_of_here).
  - rewrite length_line, lengths_dashes.
    + rewrite length_map, measureRows_length, length_replicate.
      do 2 f_equal. rewrite fmap_cons.
      change (max_list (length header :: (length <$> body)))
        with (length header `max` max_list (length <$> body)).
      assert (max_list (length <$> body) ≤ length header); [|lia].
      clear -Hrect. induction Hrect as [|row body Hrow _ IH]; [simpl; lia|].
      rewrite fmap_cons.
      change (max_list (length row :: (length <$> body)))
        with (length row `max` max_list (length <$> body)). lia.
    + eapply Forall_impl; [exact Hrect|]. simpl. intros; lia.
  - apply list_elem_of_fmap in Hin as (row & -> & Hin).
    rewrite length_line, length_padCells.
    rewrite (lengths_padded_row header body row);
      [by rewrite (Hlen row) by by apply list_elem_of_further
      | by apply list_elem_of_further
      | by apply Hlen, list_elem_of_further].
Qed.

(** The lines of a rendered table whose cells hold no newline. *)
Lemma render_lines header body :
  let colChars :=
    measureRows (header :: body) (replicate (length header) (Num 0)) in
  Forall (Forall (λ col, occurs "010" col = 0)) (header :: body) →
  textLines (render header body) =
    line (padCells colChars header)
    :: line (map (JS.repeat "-"%char) colChars)
    :: map (λ row, line (padCells colChars row)) body.
Proof.
  intros colChars Hplain. unfold textLines, render. fold colChars.
  apply splitOn_join; [done|].
  assert (∀ row, row ∈ header :: body →
            occurs "010" (line (padCells colChars row)) = 0) as Hrow.
  { intros row Hin. apply line_no_newline, occurs_padCells; [done|].
    eapply Forall_forall in Hplain; [exact Hplain | done]. }
  apply Forall_cons_2; [|apply Forall_cons_2].
  - apply Hrow, list_elem_of_here.
  - by apply line_no_newline, occurs_dashes.
  - apply Forall_forall. intros ln Hln.
    apply list_elem_of_fmap in Hln as (row & -> & Hin).
    by apply Hrow, list_elem_of_further.
Qed.

(** X7.  When no cell holds a newline, the text has exactly one line more
    than the table has rows, whatever the lengths of the rows. *)
Theorem formatTable_line_count (h : gmap loc (list string)) (table : list loc)
    (header : list string) (body : list (list string)) :
  deref h table = Some (header :: body) →
  Forall (Forall (λ col, occurs "010" col = 0)) (header :: body) →
  ∃ text h',
    formatTable table h = Some (text, h') ∧
    length (textLines text) = S (length table).
Proof.
  intros Hd Hplain. destruct (deref_nonempty _ _ _ _ Hd) as (l & ls & ->).
  eexists _, _. split; [by apply formatTable_deref|].
  rewrite render_lines by done. apply length_mapM in Hd.
  simpl in *. rewrite length_map. lia.
Qed.

(** X8.  Columns the header does not have.  [colChars] has one width per
    column of the longest row; beyond the header the width is [NaN]: the
    cells there are rendered as they are, without padding, and the line of
    dashes has an empty run for each such column. *)
Theorem formatTable_beyond_header (h : gmap loc (list string))
    (table : list loc) (header : list string) (body : list (list string)) :
  deref h table = Some (header :: body) →
  ∃ colChars h',
    measureTable h table (replicate (length header) (Num 0)) = Some colChars ∧
    formatTable table h =
      Some (JS.join (String "010" "")
              (line (padCells colChars header)
               :: line (map (JS.repeat "-"%char) colChars)
               :: map (λ row, line (padCells colChars row)) body), h') ∧
    length colChars = max_list (length <$> header :: body) ∧
    ∀ i, length header ≤ i →
      (∀ row, padCells colChars row !! i = row !! i) ∧
      (i < length colChars →
         colChars !! i = Some NaN ∧
         map (JS.repeat "-"%char) colChars !! i = Some "").
Proof.
  intros Hd. destruct (deref_nonempty _ _ _ _ Hd) as (l & ls & ->).
  eexists _, _. split; [by apply measureTable_deref|].
  split; [by apply formatTable_deref|].
  split.
  { rewrite measureRows_length, length_replicate, fmap_cons.
    change (max_list (length header :: (length <$> body)))
      with (length header `max` max_list (length <$> body)). lia. }
  intros i Hi. split; [intros row; by apply padCells_beyond|].
  intros Hlt.
  assert (measureRows (header :: body) (replicate (length header) (Num 0)) !! i
          = Some NaN) as Hnan.
  { destruct (measureRows_lookup_nan (header :: body)
                (replicate (length header) (Num 0)) i) as [Hn|Hn]; [| |done].
    - left. apply lookup_ge_None_2. rewrite length_replicate. lia.
    - apply lookup_ge_None in Hn. lia. }
  split; [exact Hnan|]. by rewrite list_lookup_fmap, Hnan.
Qed.

(** ** [generateMarkdown]: the two texts and the heap *)

Lemma formatTable_rows (h : gmap loc (list string)) (table : list loc) rows :
  deref h table = Some rows →
  ∃ h', formatTable table h = Some (formatRows rows, h') ∧
        ∀ l, l ∉ table → h' !! l = h !! l.
Proof.
  intros Hd. destruct rows as [|hrow brows].
  - apply deref_empty in Hd as ->. by eexists.
  - destruct (deref_nonempty _ _ _ _ Hd) as (l & ls & ->).
    eexists. split; [by apply formatTable_deref|].
    intros l0 Hl0. rewrite padHeap_lookup.
    destruct (h !! l0); simpl; [|done]. by rewrite decide_False.
Qed.

(** [generateMarkdown] returns the two tables rendered, and writes into no
    row that existed before the call. *)
Lemma generateMarkdown_rows packageJson (h : gmap loc (list string)) :
  ∃ h', generateMarkdown packageJson h =
          Some ((formatRows (commandsRows packageJson),
                 formatRows (configsRows packageJson)), h') ∧
        ∀ l row, h !! l = Some row → h' !! l = Some row.
Proof.
  unfold generateMarkdown.
  destruct (allocRows (commandsRows packageJson) h) as [ct h1] eqn:Hct.
  destruct (allocRows (configsRows packageJson) h1) as [cf h2] eqn:Hcf.
  destruct (allocRows_spec _ _ _ _ Hct) as (Hd1 & Hnew1 & Hsub1).
  destruct (allocRows_spec _ _ _ _ Hcf) as (Hd2 & Hnew2 & Hsub2).
  pose proof (deref_allocated _ _ _ Hd1) as Hall1.
  apply (deref_weaken _ _ _ _ Hsub2) in Hd1.
  destruct (formatTable_rows _ _ _ Hd1) as (h3 & Hf1 & Hframe1).
  rewrite Hf1. cbn [mbind option_bind].
  assert (∀ l, l ∈ cf → l ∉ ct) as Hdisj.
  { intros l Hl Hl'. apply Hnew2 in Hl.
    eapply Forall_forall in Hall1 as [r Hr]; [|exact Hl']. congruence. }
  assert (deref h3 cf = Some (configsRows packageJson)) as Hd3.
  { eapply deref_frame; [exact Hframe1 | exact Hdisj | exact Hd2]. }
  destruct (formatTable_rows _ _ _ Hd3) as (h4 & Hf2 & Hframe2).
  rewrite Hf2. cbn [mbind option_bind].
  eexists. split; [done|].
  intros l row Hl.
  assert (h1 !! l = Some row) as Hl1 by by eapply lookup_weaken.
  assert (h2 !! l = Some row) as Hl2 by by eapply lookup_weaken.
  rewrite Hframe2, Hframe1; [done | |].
  - intros Hin. apply Hnew1 in Hin. congruence.
  - intros Hin. apply Hnew2 in Hin. congruence.
Qed.

Lemma formatRows_no_data rows : formatRows rows = "**No data**" ↔ rows = [].
Proof.
  split; [|by intros ->]. destruct rows as [|header body]; [done|].
  simpl. unfold render, line. intros H. discriminate H.
Qed.

Lemma buildTable_empty header items :
  buildTable header items = [] ↔ items = None ∨ items = Some [].
Proof.
  destruct items as [[|item rest]|]; simpl; split; try done; auto.
  - intros [?|?]; done.
Qed.

(** X9.  [generateMarkdown] returns two texts for every manifest.  The
    first is [**No data**] exactly when the manifest declares no command,
    the list being absent or empty, and the second exactly when it declares
    no preference; otherwise the text is a table with its header. *)
Theorem generateMarkdown_no_data (packageJson : PackageJSON)
    (h : gmap loc (list string)) :
  ∃ commandsText configsText h',
    generateMarkdown packageJson h = Some ((commandsText, configsText), h') ∧
    (commandsText = "**No data**" ↔
       commands packageJson = None ∨ commands packageJson = Some []) ∧
    (configsText = "**No data**" ↔
       preferences packageJson = None ∨ preferences packageJson = Some []).
Proof.
  destruct (generateMarkdown_rows packageJson h) as (h' & Hg & _).
  eexists _, _, _. split; [exact Hg|].
  rewrite !formatRows_no_data. unfold commandsRows, configsRows.
  rewrite !buildTable_empty.
  destruct (commands packageJson) as [[|c cs]|],
    (preferences packageJson) as [[|p ps]|]; simpl;
    intuition congruence.
Qed.

(** X10.  With at least one command declared, the first text is the
    rendering of the header [Title], [Description] and, for every command
    in order, the title in backticks, not escaped, and the escaped
    description. *)
Theorem generateMarkdown_command_rows (packageJson : PackageJSON)
    (c : RaycastCommand) (cs : list RaycastCommand)
    (h : gmap loc (list string)) :
  commands packageJson = Some (c :: cs) →
  ∃ configsText h',
    generateMarkdown packageJson h =
      Some ((render ["Title"; "Description"]
               (map (λ c, [ "`" +:+ cmd_title c +:+ "`";
                            markdownEscape (cmd_description c) ]) (c :: cs)),
             configsText), h').
Proof.
  intros Hc. destruct (generateMarkdown_rows packageJson h) as (h' & Hg & _).
  eexists _, _. rewrite Hg. unfold commandsRows. rewrite Hc. reflexivity.
Qed.

Lemma generateMarkdown_command_rows_witness :
  commands exampleCommands ≠ None ∧
  (λ r, r.1.1) <$> generateMarkdown exampleCommands ∅ = Some
"| Title          | Description   |
| -------------- | ------------- |
| `Search <all>` | find a&vert;b |".
Proof.
  split; [done|].
  destruct (generateMarkdown_command_rows exampleCommands _ _ ∅ eq_refl)
    as (text & h' & Hg).
  rewrite Hg. vm_compute. reflexivity.
Defined.

(** X11.  [generateMarkdown] builds its tables from new arrays: every row
    that existed before the call holds after it what it held before. *)
Theorem generateMarkdown_keeps_rows (packageJson : PackageJSON)
    (h h' : gmap loc (list string)) (texts : string * string)
    (l : loc) (row : list string) :
  generateMarkdown packageJson h = Some (texts, h') →
  h !! l = Some row → h' !! l = Some row.
Proof.
  intros Hg Hl.
  destruct (generateMarkdown_rows packageJson h) as (h2 & Hg2 & Hkeep).
  rewrite Hg in Hg2. injection Hg2 as _ <-. by apply Hkeep.
Qed.

Lemma generateMarkdown_keeps_rows_witness :
  ∃ texts h',
    generateMarkdown exampleCommands exampleHeaderOnly = Some (texts, h') ∧
    exampleHeaderOnly !! 0 = Some ["A"; "B"] ∧
    h' !! 0 = Some ["A"; "B"].
Proof.
  destruct (generateMarkdown_rows exampleCommands exampleHeaderOnly)
    as (h' & Hg & _).
  assert (exampleHeaderOnly !! 0 = Some ["A"; "B"]) as Hl by reflexivity.
  eexists _, h'. split; [exact Hg|]. split; [exact Hl|].
  exact (generateMarkdown_keeps_rows _ _ _ _ 0 _ Hg Hl).
Defined.

(** ** The grid of the preferences table *)

Lemma max_list_bound ks b : Forall (λ k, k ≤ b) ks → max_list ks ≤ b.
Proof. induction 1 as [|k ks Hk _ IH]; simpl; lia. Qed.

(** A table with [n] cells in every row, [n] at least 1, and no bar and no
    newline in any cell: every line, the line of dashes included, has [n]
    fields. *)
Lemma render_fields header body n :
  0 < n →
  Forall (λ row, length row = n ∧ Forall plainCell row) (header :: body) →
  length (textLines (render header body)) = 2 + length body ∧
  Forall (λ ln, fields ln = n) (textLines (render header body)).
Proof.
  intros Hn Hrows.
  set (colChars := measureRows (header :: body)
                     (replicate (length header) (Num 0))).
  assert (Forall (Forall (λ col, occurs "010" col = 0)) (header :: body))
    as Hnl.
  { eapply Forall_impl; [exact Hrows|]. intros row [_ Hcells].
    eapply Forall_impl; [exact Hcells|]. by intros col [_ ?]. }
  rewrite render_lines by done. fold colChars.
  split; [simpl; by rewrite length_map|].
  assert (∀ row, row ∈ header :: body →
            fields (line (padCells colChars row)) = n) as Hrow.
  { intros row Hin. eapply Forall_forall in Hrows as [Hlen Hcells]; [|exact Hin].
    rewrite fields_line, length_padCells; [done | |].
    - intros Hnil. apply (f_equal length) in Hnil.
      rewrite length_padCells in Hnil. simpl in Hnil. lia.
    - apply occurs_padCells; [done|].
      eapply Forall_impl; [exact Hcells|]. by intros col [? _]. }
  assert (length colChars = n) as Hcc.
  { unfold colChars. rewrite measureRows_length, length_replicate.
    assert (length header = n) as Hh.
    { eapply Forall_forall in Hrows as [? _]; [done | apply list_elem_of_here]. }
    assert (max_list (length <$> header :: body) ≤ n); [|lia].
    apply max_list_bound, Forall_fmap.
    eapply Forall_impl; [exact Hrows|]. intros row [Hlen _]. simpl. lia. }
  apply Forall_cons_2; [|apply Forall_cons_2].
  - apply Hrow, list_elem_of_here.
  - rewrite fields_line, length_map; [done | |].
    + intros Hnil. apply (f_equal length) in Hnil.
      rewrite length_map in Hnil. simpl in Hnil. lia.
    + by apply occurs_dashes.
  - apply Forall_forall. intros ln Hln.
    apply list_elem_of_fmap in Hln as (row & -> & Hin).
    by apply Hrow, list_elem_of_further.
Qed.

Lemma occurs_backticks c s :
  "`"%char ≠ c → occurs c (backticks s) = occurs c s.
Proof.
  intros Hne. unfold backticks. rewrite !occurs_app. cbn [occurs].
  destruct (Ascii.eqb_spec "`"%char c); [done | lia].
Qed.

Lemma occurs_markdownEscape_newline s :
  occurs "010" (markdownEscape s) = occurs "010" s.
Proof.
  rewrite markdownEscape_substitute. apply occurs_substitute.
  intros x. destruct x as [[] [] [] [] [] [] [] []]; reflexivity.
Qed.

Lemma occurs_markdownEscape_bar s : occurs "|" (markdownEscape s) = 0.
Proof.
  rewrite markdownEscape_substitute. apply occurs_substitute_0.
  intros x. destruct x as [[] [] [] [] [] [] [] []]; reflexivity.
Qed.

(** X12.  The grid of the preferences table holds whatever the descriptions
    and defaults contain, bars included, as long as no name holds a bar and
    no name, description or default holds a newline: the text then has its
    two heading lines and one line per preference, and every line has
    exactly four fields. *)
Theorem generateMarkdown_preferences_grid (packageJson : PackageJSON)
    (p : RaycastPreference) (ps : list RaycastPreference)
    (h : gmap loc (list string)) :
  preferences packageJson = Some (p :: ps) →
  Forall (λ q, occurs "|" (pref_name q) = 0 ∧
               occurs "010" (pref_name q) = 0 ∧
               occurs "010" (pref_description q) = 0 ∧
               occurs "010" (String_of (pref_default q)) = 0) (p :: ps) →
  ∃ commandsText configsText h',
    generateMarkdown packageJson h = Some ((commandsText, configsText), h') ∧
    length (textLines configsText) = 2 + length (p :: ps) ∧
    Forall (λ ln, fields ln = 4) (textLines configsText).
Proof.
  intros Hp Hplain.
  destruct (generateMarkdown_rows packageJson h) as (h' & Hg & _).
  eexists _, _, _. split; [exact Hg|].
  unfold configsRows. rewrite Hp.
  change (formatRows _) with
    (render ["Key"; "Description"; "Required"; "Default"]
       (map preferenceRow (p :: ps))).
  rewrite <- (length_map preferenceRow (p :: ps)).
  apply render_fields; [lia|].
  apply Forall_cons_2.
  { split; [done|]. repeat apply Forall_cons_2; try apply Forall_nil_2; by split. }
  apply Forall_fmap. eapply Forall_impl; [exact Hplain|].
  intros q (Hbar & Hnl & Hdesc & Hdef). split; [done|].
  unfold preferenceRow.
  repeat apply Forall_cons_2; try apply Forall_nil_2; split.
  - by rewrite occurs_backticks.
  - by rewrite occurs_backticks.
  - apply occurs_markdownEscape_bar.
  - by rewrite occurs_markdownEscape_newline.
  - by destruct (pref_required q) as [[]|].
  - by destruct (pref_required q) as [[]|].
  - apply occurs_markdownEscape_bar.
  - by rewrite occurs_markdownEscape_newline.
Qed.

Lemma generateMarkdown_preferences_grid_witness :
  preferences examplePreferences ≠ None ∧
  ∃ commandsText configsText h',
    generateMarkdown examplePreferences ∅
      = Some ((commandsText, configsText), h') ∧
    length (textLines configsText) = 4 ∧
    Forall (λ ln, fields ln = 4) (textLines configsText).
Proof.
  split; [done|].
  refine (generateMarkdown_preferences_grid examplePreferences _ _ ∅ eq_refl _).
  repeat apply Forall_cons_2; try apply Forall_nil_2; repeat split.
Defined.

(** ** The regular expression of the splice step *)

Lemma properNames_commands : properNames ["commands"; "commands-table"].
Proof.
  split.
  - intros n n' s Hn Hn' Hp.
    apply elem_of_cons in Hn as [->|Hn]; [|apply elem_of_cons in Hn as [->|Hn]];
    [| |by apply elem_of_nil in Hn];
    (apply elem_of_cons in Hn' as [->|Hn'];
     [|apply elem_of_cons in Hn' as [->|Hn']]; [| |by apply elem_of_nil in Hn']);
    try done; cbv in Hp; discriminate Hp.
  - repeat apply Forall_cons_2; try apply Forall_nil_2; reflexivity.
Qed.

Lemma properNames_configs : properNames ["configs"; "configs-table"].
Proof.
  split.
  - intros n n' s Hn Hn' Hp.
    apply elem_of_cons in Hn as [->|Hn]; [|apply elem_of_cons in Hn as [->|Hn]];
    [| |by apply elem_of_nil in Hn];
    (apply elem_of_cons in Hn' as [->|Hn'];
     [|apply elem_of_cons in Hn' as [->|Hn']]; [| |by apply elem_of_nil in Hn']);
    try done; cbv in Hp; discriminate Hp.
  - repeat apply Forall_cons_2; try apply Forall_nil_2; reflexivity.
Qed.

Lemma marker_cons name :
  marker name = String "<" ("!-- " +:+ name +:+ " -->").
Proof. reflexivity. Qed.

Lemma prefix_app p : ∀ s, String.prefix p (p +:+ s) = true.
Proof.
  induction p as [|a p IH]; intros s; [by destruct s|].
  rewrite app_cons. simpl. destruct (ascii_dec a a); [apply IH | done].
Qed.

Lemma substring_app_drop p : ∀ s,
  substring (String.length p)
    (String.length (p +:+ s) - String.length p) (p +:+ s) = s.
Proof.
  induction p as [|a p IH]; intros s.
  - rewrite app_empty_l. simpl. rewrite Nat.sub_0_r. apply substring_all.
  - rewrite app_cons. simpl. apply IH.
Qed.

Lemma matchMarker_in names s name rest :
  matchMarker names s = Some (name, rest) → name ∈ names.
Proof.
  induction names as [|n names IH]; [done|]. cbn [matchMarker].
  destruct (String.prefix (marker n) s).
  - intros [= <- _]. apply list_elem_of_here.
  - intros H. by apply list_elem_of_further, IH.
Qed.

(** A marker is found where a marker starts. *)
Lemma matchMarker_some names n s :
  n ∈ names → is_Some (matchMarker names (marker n +:+ s)).
Proof.
  induction names as [|n0 names IH]; intros Hn.
  { by apply elem_of_nil in Hn. }
  cbn [matchMarker].
  destruct (String.prefix (marker n0) (marker n +:+ s)) eqn:Hp; [by eexists|].
  apply elem_of_cons in Hn as [->|Hn]; [|by apply IH].
  by rewrite prefix_app in Hp.
Qed.

(** With proper names, the marker found is the one that stands there. *)
Lemma matchMarker_at names n s :
  properNames names → n ∈ names →
  matchMarker names (marker n +:+ s) = Some (n, s).
Proof.
  intros [Hfree _] Hn.
  destruct (matchMarker_some names n s Hn) as [[n' rest] Hm].
  pose proof (matchMarker_in _ _ _ _ Hm) as Hn'.
  assert (n' = n) as ->.
  { apply (Hfree n' n s Hn' Hn).
    clear -Hm. induction names as [|n0 names IH]; [done|].
    cbn [matchMarker] in Hm.
    destruct (String.prefix (marker n0) (marker n +:+ s)) eqn:Hp; [|by apply IH].
    by injection Hm as -> _. }
  rewrite Hm. f_equal. f_equal.
  apply matchMarker_sound in Hm. by apply String.app_inj in Hm.
Qed.

Lemma matchLazy_in names : ∀ s mid name rest,
  matchLazy names s = Some (mid, name, rest) → name ∈ names.
Proof.
  induction s as [|c s IH]; intros mid name rest; cbn [matchLazy].
  - destruct (matchMarker names "") as [[n r]|] eqn:Hm; [|done].
    intros [= _ <- _]. by eapply matchMarker_in.
  - destruct (matchMarker names (String c s)) as [[n r]|] eqn:Hm.
    + intros [= _ <- _]. by eapply matchMarker_in.
    + destruct (matchLazy names s) as [[[mid' n'] r']|] eqn:Hl; [|done].
      cbn [mbind option_bind]. intros [= _ <- _]. by eapply IH.
Qed.

Lemma regexExec_captures names : ∀ raw m,
  regexExec names raw = Some m → capture1 m ∈ names ∧ capture2 m ∈ names.
Proof.
  assert (∀ s m, matchHere names s = Some m →
            capture1 m ∈ names ∧ capture2 m ∈ names) as Hhere.
  { intros s m. unfold matchHere.
    destruct (matchMarker names s) as [[n1 rest]|] eqn:H1; [|done].
    cbn [mbind option_bind].
    destruct (matchLazy names rest) as [[[mid n2] tail]|] eqn:H2; [|done].
    cbn [mbind option_bind]. intros [= <-]. simpl.
    split; [by eapply matchMarker_in | by eapply matchLazy_in]. }
  induction raw as [|c s IH]; intros m; cbn [regexExec].
  - destruct (matchHere names "") as [m'|] eqn:Hh; [|done].
    intros [= <-]. by eapply Hhere.
  - destruct (matchHere names (String c s)) as [m'|] eqn:Hh.
    + intros [= <-]. by eapply Hhere.
    + destruct (regexExec names s) as [m'|] eqn:He; [|done].
      cbn [mbind option_bind]. intros [= <-]. simpl. by apply IH.
Qed.

Lemma regexExec_parts names raw m :
  regexExec names raw = Some m →
  raw = before m +:+ marker (capture1 m) +:+ between m
        +:+ marker (capture2 m) +:+ after m.
Proof.
  intros Hm. rewrite (regexExec_sound _ _ _ Hm) at 1. unfold matched.
  by rewrite !app_assoc_string.
Qed.

(** X13.  What a match is: the text is the part before it, the opening
    marker, the region, the closing marker and the part after it, and both
    markers carry one of the names of the expression. *)
Theorem regexExec_match (names : list string) (raw : string) (m : regexMatch) :
  regexExec names raw = Some m →
  raw = before m +:+ marker (capture1 m) +:+ between m
        +:+ marker (capture2 m) +:+ after m ∧
  capture1 m ∈ names ∧ capture2 m ∈ names.
Proof.
  intros Hm. split.
  - exact (regexExec_parts names raw m Hm).
  - exact (regexExec_captures names raw m Hm).
Qed.

Lemma matchLazy_some names s2 : ∀ s1,
  is_Some (matchMarker names s2) → is_Some (matchLazy names (s1 +:+ s2)).
Proof.
  assert (is_Some (matchMarker names s2) → is_Some (matchLazy names s2)) as H2.
  { intros [[n r] Hm]. destruct s2; cbn [matchLazy]; rewrite Hm; by eexists. }
  induction s1 as [|c s1 IH]; intros Hm; [by apply H2|].
  rewrite app_cons. cbn [matchLazy].
  destruct (matchMarker names (String c (s1 +:+ s2))) as [[n r]|]; [by eexists|].
  destruct (IH Hm) as [[[mid n] r] ->]. by eexists.
Qed.

Lemma regexExec_here names s m :
  matchHere names s = Some m → regexExec names s = Some m.
Proof. intros Hm. destruct s; cbn [regexExec]; by rewrite Hm. Qed.

Lemma regexExec_cons names c s :
  matchHere names (String c s) = None →
  regexExec names (String c s) =
  (λ m, {| before := String c (before m); capture1 := capture1 m;
           between := between m; capture2 := capture2 m;
           after := after m |}) <$> regexExec names s.
Proof.
  intros Hm. cbn [regexExec]. rewrite Hm. by destruct (regexExec names s).
Qed.

Lemma regexExec_app_some names s : ∀ a,
  is_Some (regexExec names s) → is_Some (regexExec names (a +:+ s)).
Proof.
  induction a as [|c a IH]; intros Hs; [done|].
  rewrite app_cons. cbn [regexExec].
  destruct (matchHere names (String c (a +:+ s))); [by eexists|].
  destruct (IH Hs) as [m ->]. by eexists.
Qed.

Lemma matchHere_some names n1 n2 b c :
  properNames names → n1 ∈ names → n2 ∈ names →
  is_Some (matchHere names (marker n1 +:+ b +:+ marker n2 +:+ c)).
Proof.
  intros Hnames H1 H2. unfold matchHere.
  rewrite matchMarker_at by done. cbn [mbind option_bind].
  destruct (matchLazy_some names (marker n2 +:+ c) b) as [[[mid n] r] ->].
  { by apply matchMarker_some. }
  by eexists.
Qed.

(** X14.  A region is found whenever there is one: in a text that holds an
    opening marker and, somewhere after it, a closing marker, the expression
    matches. *)
Theorem regexExec_complete (names : list string) (n1 n2 a b c : string) :
  properNames names → n1 ∈ names → n2 ∈ names →
  is_Some (regexExec names (a +:+ marker n1 +:+ b +:+ marker n2 +:+ c)).
Proof.
  intros Hnames H1 H2. apply regexExec_app_some.
  destruct (matchHere_some names n1 n2 b c Hnames H1 H2) as [m Hm].
  exists m. by apply regexExec_here.
Qed.

Lemma regexExec_complete_witness :
  properNames ["commands"; "commands-table"] ∧
  is_Some (regexExec ["commands"; "commands-table"]
             ("intro " +:+ marker "commands-table" +:+ "old"
              +:+ marker "commands" +:+ " outro")).
Proof.
  split; [exact properNames_commands|].
  apply (regexExec_complete _ "commands-table" "commands");
    [exact properNames_commands | |].
  - apply list_elem_of_further, list_elem_of_here.
  - apply list_elem_of_here.
Defined.

Lemma marker_not_empty n b1 b2 : "" ≠ b1 +:+ marker n +:+ b2.
Proof. destruct b1; [rewrite marker_cons|]; discriminate. Qed.

Lemma matchLazy_first names : ∀ s mid name rest,
  matchLazy names s = Some (mid, name, rest) →
  ∀ b1 n b2, mid = b1 +:+ marker n +:+ b2 → n ∉ names.
Proof.
  induction s as [|c s IH]; intros mid name rest; cbn [matchLazy].
  - destruct (matchMarker names "") as [[n0 r]|]; [|done].
    intros [= <- _ _] b1 n b2 Hmid. by apply marker_not_empty in Hmid.
  - destruct (matchMarker names (String c s)) as [[n0 r]|] eqn:Hm.
    { intros [= <- _ _] b1 n b2 Hmid. by apply marker_not_empty in Hmid. }
    destruct (matchLazy names s) as [[[mid' n'] r']|] eqn:Hl; [|done].
    cbn [mbind option_bind]. intros [= <- <- <-] b1 n b2 Hmid Hn.
    destruct b1 as [|x b1].
    + rewrite app_empty_l in Hmid.
      pose proof (matchLazy_sound _ _ _ _ _ Hl) as Hs.
      assert (String c s = marker n +:+ (b2 +:+ marker n' +:+ r')) as Hcs.
      { rewrite Hs, <- app_cons, Hmid. by rewrite !app_assoc_string. }
      destruct (matchMarker_some names n (b2 +:+ marker n' +:+ r') Hn)
        as [x Hx]. congruence.
    + rewrite app_cons in Hmid. injection Hmid as _ Hmid.
      by apply (IH _ _ _ eq_refl b1 n b2).
Qed.

Lemma regexExec_lazy names : ∀ s m,
  regexExec names s = Some m →
  ∃ rest, matchLazy names rest = Some (between m, capture2 m, after m).
Proof.
  assert (∀ s m, matchHere names s = Some m →
            ∃ rest, matchLazy names rest
                    = Some (between m, capture2 m, after m)) as Hhere.
  { intros s m. unfold matchHere.
    destruct (matchMarker names s) as [[n1 rest]|]; [|done].
    cbn [mbind option_bind].
    destruct (matchLazy names rest) as [[[mid n2] tail]|] eqn:H2; [|done].
    cbn [mbind option_bind]. intros [= <-]. by exists rest. }
  induction s as [|c s IH]; intros m; cbn [regexExec].
  - destruct (matchHere names "") as [m'|] eqn:Hh; [|done].
    intros [= <-]. by eapply Hhere.
  - destruct (matchHere names (String c s)) as [m'|] eqn:Hh.
    + intros [= <-]. by eapply Hhere.
    + destruct (regexExec names s) as [m'|] eqn:He; [|done].
      cbn [mbind option_bind]. intros [= <-]. simpl. by apply IH.
Qed.

(** X15.  The region ends at the first closing marker: no marker with one
    of the names stands inside the region. *)
Theorem regexExec_between_lazy (names : list string) (raw : string)
    (m : regexMatch) (b1 n b2 : string) :
  regexExec names raw = Some m →
  between m = b1 +:+ marker n +:+ b2 →
  n ∉ names.
Proof.
  intros Hm Hmid. destruct (regexExec_lazy _ _ _ Hm) as [rest Hl].
  by eapply matchLazy_first.
Qed.

(** X16.  The match is the first one: no marker with one of the names
    stands in the text before the match. *)
Theorem regexExec_leftmost (names : list string) (raw : string)
    (m : regexMatch) (b1 n b2 : string) :
  properNames names →
  regexExec names raw = Some m →
  before m = b1 +:+ marker n +:+ b2 →
  n ∉ names.
Proof.
  intros Hnames. revert m b1.
  induction raw as [|c s IH]; intros m b1; cbn [regexExec].
  - destruct (matchHere names "") as [m'|] eqn:Hh; [|done].
    intros [= <-] Hb. unfold matchHere in Hh.
    destruct (matchMarker names "") as [[n1 rest]|]; [|done].
    cbn [mbind option_bind] in Hh.
    destruct (matchLazy names rest) as [[[mid n2] tail]|]; [|done].
    injection Hh as <-. simpl in Hb. by apply marker_not_empty in Hb.
  - destruct (matchHere names (String c s)) as [m'|] eqn:Hh.
    { intros [= <-] Hb. unfold matchHere in Hh.
      destruct (matchMarker names (String c s)) as [[n1 rest]|]; [|done].
      cbn [mbind option_bind] in Hh.
      destruct (matchLazy names rest) as [[[mid n2] tail]|]; [|done].
      injection Hh as <-. simpl in Hb. by apply marker_not_empty in Hb. }
    destruct (regexExec names s) as [m'|] eqn:He; [|done].
    cbn [mbind option_bind]. intros [= <-]. simpl. intros Hb Hn.
    destruct b1 as [|x b1].
    + rewrite app_empty_l in Hb.
      pose proof (regexExec_parts _ _ _ He) as Hs.
      destruct (regexExec_captures _ _ _ He) as (H1 & _).
      assert (String c s = marker n +:+ b2 +:+ marker (capture1 m')
                +:+ (between m' +:+ marker (capture2 m') +:+ after m')) as Hcs.
      { rewrite Hs, <- app_cons, Hb. by rewrite !app_assoc_string. }
      rewrite Hcs in Hh. unfold matchHere in Hh.
      rewrite matchMarker_at in Hh by done. cbn [mbind option_bind] in Hh.
      destruct (matchLazy_some names
                  (marker (capture1 m') +:+ between m'
                   +:+ marker (capture2 m') +:+ after m') b2) as [[[mid k] r] Hl].
      { by apply matchMarker_some. }
      by rewrite Hl in Hh.
    + rewrite app_cons in Hb. injection Hb as _ Hb.
      by apply (IH m' b1 eq_refl Hb).
Qed.

Lemma exampleNotes_match :
  regexExec ["commands"; "commands-table"] exampleNotes = Some exampleNotesMatch.
Proof. vm_compute. reflexivity. Qed.

Lemma regexExec_match_witness :
  regexExec ["commands"; "commands-table"] exampleNotes = Some exampleNotesMatch ∧
  exampleNotes = before exampleNotesMatch +:+ marker "commands-table"
                 +:+ between exampleNotesMatch +:+ marker "commands"
                 +:+ after exampleNotesMatch.
Proof.
  split; [exact exampleNotes_match|].
  exact (proj1 (regexExec_match _ _ _ exampleNotes_match)).
Defined.

Lemma regexExec_between_lazy_witness :
  regexExec ["commands"; "commands-table"] exampleNotes = Some exampleNotesMatch ∧
  between exampleNotesMatch = "
old " +:+ marker "configs" +:+ " table
" ∧
  "configs" ∉ ["commands"; "commands-table"].
Proof.
  assert (between exampleNotesMatch = "
old " +:+ marker "configs" +:+ " table
") as Hmid by reflexivity.
  split; [exact exampleNotes_match|]. split; [exact Hmid|].
  exact (regexExec_between_lazy _ _ _ _ _ _ exampleNotes_match Hmid).
Defined.

Lemma regexExec_leftmost_witness :
  properNames ["commands"; "commands-table"] ∧
  regexExec ["commands"; "commands-table"] exampleNotes = Some exampleNotesMatch ∧
  before exampleNotesMatch = "# Notes " +:+ marker "draft" +:+ "
" ∧
  "draft" ∉ ["commands"; "commands-table"].
Proof.
  assert (before exampleNotesMatch = "# Notes " +:+ marker "draft" +:+ "
") as Hb by reflexivity.
  split; [exact properNames_commands|].
  split; [exact exampleNotes_match|]. split; [exact Hb|].
  exact (regexExec_leftmost _ _ _ _ _ _ properNames_commands
           exampleNotes_match Hb).
Defined.

(** ** The splice step: what is replaced *)

(** The replacement of a match by a table without [$]. *)
Lemma replaceMarkers_plain names table raw m :
  regexExec names raw = Some m →
  occurs "$" table = 0 →
  replaceMarkers names table raw =
    before m +:+ marker (capture1 m) +:+ blankLine +:+ table +:+ blankLine
    +:+ marker (capture2 m) +:+ after m.
Proof.
  intros Hm Hplain. unfold replaceMarkers. rewrite Hm. f_equal.
  rewrite GetSubstitution_opening.
  rewrite (GetSubstitution_plain _ _ blankLine) by done.
  rewrite (GetSubstitution_plain _ _ table) by done.
  rewrite (GetSubstitution_plain _ _ blankLine) by done.
  rewrite GetSubstitution_closing.
  by rewrite !app_assoc_string.
Qed.

(** X17.  With a table that holds no [$], the step replaces the region and
    nothing else: the text before the opening marker, both markers as they
    were found, and the text after the closing marker are kept, and between
    the markers stands the table with a blank line on either side. *)
Theorem replaceMarkers_region (names : list string) (table raw : string)
    (m : regexMatch) :
  regexExec names raw = Some m →
  occurs "$" table = 0 →
  raw = before m +:+ marker (capture1 m) +:+ between m
        +:+ marker (capture2 m) +:+ after m ∧
  replaceMarkers names table raw =
    before m +:+ marker (capture1 m) +:+ blankLine +:+ table +:+ blankLine
    +:+ marker (capture2 m) +:+ after m.
Proof.
  intros Hm Hplain. split.
  - exact (regexExec_parts names raw m Hm).
  - exact (replaceMarkers_plain names table raw m Hm Hplain).
Qed.

Lemma replaceMarkers_region_witness :
  regexExec ["commands"; "commands-table"] exampleNotes = Some exampleNotesMatch ∧
  occurs "$" "| T |" = 0 ∧
  replaceMarkers ["commands"; "commands-table"] "| T |" exampleNotes =
"# Notes <!-- draft -->
<!-- commands-table -->

| T |

<!-- commands -->
tail <!-- commands -->".
Proof.
  assert (occurs "$" "| T |" = 0) as Hplain by reflexivity.
  split; [exact exampleNotes_match|]. split; [exact Hplain|].
  exact (proj2 (replaceMarkers_region _ _ _ _ exampleNotes_match Hplain)).
Defined.

(** A text without a marker of [names] has no match. *)
Lemma regexExec_no_marker names raw :
  (∀ a n b, raw = a +:+ marker n +:+ b → n ∉ names) →
  regexExec names raw = None.
Proof.
  intros Hno. destruct (regexExec names raw) as [m|] eqn:Hm; [|done].
  destruct (regexExec_captures _ _ _ Hm) as [H1 _].
  by destruct (Hno _ _ _ (regexExec_parts _ _ _ Hm)).
Qed.

(** X18.  A README that holds none of the four markers is left alone:
    nothing is written. *)
Theorem generate_without_markers (packageJson : PackageJSON) (raw : string) :
  (∀ a n b, raw = a +:+ marker n +:+ b →
     n ∉ ["commands"; "commands-table"; "configs"; "configs-table"]) →
  generate packageJson raw = Some None.
Proof.
  intros Hno. unfold generate.
  destruct (generateMarkdown_rows packageJson ∅) as (h' & -> & _).
  cbn [mbind option_bind fst snd]. unfold splice, replaceMarkers.
  rewrite (regexExec_no_marker ["commands"; "commands-table"]).
  2: { intros a n b Hraw Hn. apply (Hno a n b Hraw).
       apply elem_of_cons in Hn as [->|Hn]; [apply list_elem_of_here|].
       apply elem_of_cons in Hn as [->|Hn];
         [apply list_elem_of_further, list_elem_of_here|].
       by apply elem_of_nil in Hn. }
  rewrite (regexExec_no_marker ["configs"; "configs-table"]).
  2: { intros a n b Hraw Hn. apply (Hno a n b Hraw).
       do 2 apply list_elem_of_further. exact Hn. }
  by rewrite decide_True.
Qed.

Lemma occurs_marker n : 0 < occurs "<" (marker n).
Proof. rewrite marker_cons. simpl. lia. Qed.

Lemma generate_without_markers_witness :
  generate exampleDollar "# Pay

No tables here." = Some None.
Proof.
  apply generate_without_markers. intros a n b Hraw.
  apply (f_equal (occurs "<")) in Hraw.
  rewrite !occurs_app in Hraw. pose proof (occurs_marker n) as Hn.
  change (0 = occurs "<" a + (occurs "<" (marker n) + occurs "<" b)) in Hraw.
  lia.
Defined.

(** ** The splice step: running it again *)

(** Whether a text without [<] starts [b], followed by a [<], is decided by
    [b]. *)
Lemma prefix_before_lt p : ∀ b z,
  occurs "<" p = 0 →
  String.prefix p (b +:+ String "<" z) = String.prefix p b.
Proof.
  induction p as [|a p IH]; intros b z Hp.
  - by destruct b.
  - simpl in Hp. destruct (Ascii.eqb_spec a "<") as [->|Hne]; [lia|].
    destruct b as [|d b].
    + rewrite app_empty_l. simpl. by destruct (ascii_dec a "<").
    + rewrite app_cons. simpl. destruct (ascii_dec a d); [|done].
      by apply IH.
Qed.

Lemma prefix_marker_before_lt n c b z :
  occurs "<" n = 0 →
  String.prefix (marker n) (String c b +:+ String "<" z)
  = String.prefix (marker n) (String c b).
Proof.
  intros Hn. rewrite marker_cons, (app_cons c b). cbn [String.prefix].
  destruct (ascii_dec "<" c); [|done].
  apply prefix_before_lt. rewrite !occurs_app, Hn. reflexivity.
Qed.

(** Where no marker starts before a [<], none starts there whatever
    follows the [<]. *)
Lemma matchMarker_before_lt names c b z z' :
  Forall (λ n, occurs "<" n = 0) names →
  matchMarker names (String c b +:+ String "<" z) = None →
  matchMarker names (String c b +:+ String "<" z') = None.
Proof.
  induction 1 as [|n names Hn _ IH]; [done|]. cbn [matchMarker].
  rewrite !prefix_marker_before_lt by done.
  destruct (String.prefix (marker n) (String c b)); [done|]. exact IH.
Qed.

Lemma matchMarker_not_lt names c s :
  c ≠ "<"%char → matchMarker names (String c s) = None.
Proof.
  intros Hc. destruct (matchMarker names (String c s)) as [[n r]|] eqn:Hm; [|done].
  apply matchMarker_sound in Hm. rewrite marker_cons, app_cons in Hm.
  congruence.
Qed.

Lemma matchMarker_empty names : matchMarker names "" = None.
Proof.
  destruct (matchMarker names "") as [[n r]|] eqn:Hm; [|done].
  apply matchMarker_sound in Hm. by rewrite marker_cons, app_cons in Hm.
Qed.

(** The lazy part runs over a text without [<]. *)
Lemma matchLazy_skip names rest : ∀ mid,
  occurs "<" mid = 0 →
  matchLazy names (mid +:+ rest) =
  (λ r, (mid +:+ r.1.1, r.1.2, r.2)) <$> matchLazy names rest.
Proof.
  induction mid as [|c mid IH]; intros Hmid.
  - rewrite app_empty_l. by destruct (matchLazy names rest) as [[[? ?] ?]|].
  - simpl in Hmid. destruct (Ascii.eqb_spec c "<") as [->|Hne]; [lia|].
    rewrite app_cons. cbn [matchLazy].
    rewrite matchMarker_not_lt by done. rewrite IH by done.
    by destruct (matchLazy names rest) as [[[? ?] ?]|].
Qed.

Lemma matchLazy_at names n s :
  properNames names → n ∈ names →
  matchLazy names (marker n +:+ s) = Some ("", n, s).
Proof.
  intros Hnames Hn. rewrite marker_cons, app_cons. cbn [matchLazy].
  rewrite <- app_cons, <- marker_cons. by rewrite matchMarker_at.
Qed.

(** The match at an opening marker, a region without [<] and a closing
    marker. *)
Lemma matchHere_at names n1 n2 mid tail :
  properNames names → n1 ∈ names → n2 ∈ names →
  occurs "<" mid = 0 →
  matchHere names (marker n1 +:+ mid +:+ marker n2 +:+ tail) =
  Some {| before := ""; capture1 := n1; between := mid;
          capture2 := n2; after := tail |}.
Proof.
  intros Hnames H1 H2 Hmid. unfold matchHere.
  rewrite matchMarker_at by done. cbn [mbind option_bind].
  rewrite matchLazy_skip, matchLazy_at by done.
  cbn [fmap option_fmap option_map mbind option_bind fst snd].
  by rewrite app_empty_r.
Qed.

Lemma marker_app_cons n y :
  marker n +:+ y = String "<" (("!-- " +:+ n +:+ " -->") +:+ y).
Proof. reflexivity. Qed.

(** Where the expression does not match before an opening marker, it does
    not either when the text after that marker is another one. *)
Lemma matchHere_before_marker names c b n1 y y' :
  properNames names → n1 ∈ names →
  matchHere names (String c b +:+ marker n1 +:+ y) = None →
  matchHere names (String c b +:+ marker n1 +:+ y') = None.
Proof.
  intros Hnames H1 Hh. unfold matchHere in *.
  destruct (matchMarker names (String c b +:+ marker n1 +:+ y))
    as [[n rest]|] eqn:Hm.
  - exfalso. cbn [mbind option_bind] in Hh.
    pose proof (matchMarker_in _ _ _ _ Hm) as Hn.
    pose proof (matchMarker_sound _ _ _ _ Hm) as Hs.
    assert (String.prefix (marker n) (String c b) = true) as Hp.
    { rewrite <- (prefix_marker_before_lt n c b
                    (("!-- " +:+ n1 +:+ " -->") +:+ y)).
      - rewrite <- marker_app_cons, Hs. apply prefix_app.
      - destruct Hnames as [_ Hlt].
        eapply Forall_forall in Hlt; [exact Hlt | exact Hn]. }
    apply prefix_split in Hp. rewrite Hp, app_assoc_string in Hs.
    apply String.app_inj in Hs. rewrite <- Hs in Hh.
    destruct (matchLazy_some names (marker n1 +:+ y)
                (substring (String.length (marker n))
                   (String.length (String c b) - String.length (marker n))
                   (String c b))) as [[[mid k] r] Hl].
    { by apply matchMarker_some. }
    by rewrite Hl in Hh.
  - rewrite marker_app_cons in Hm |- *.
    rewrite (matchMarker_before_lt names c b _ _ (proj2 Hnames) Hm). done.
Qed.

(** Putting a text without [<] between the markers of a match gives a text
    in which the same markers match. *)
Lemma regexExec_withBetween names mid :
  properNames names → occurs "<" mid = 0 →
  ∀ raw m, regexExec names raw = Some m →
    regexExec names (matchedText (withBetween m mid))
    = Some (withBetween m mid).
Proof.
  intros Hnames Hmid.
  induction raw as [|c s IH]; intros m Hm.
  - cbn [regexExec] in Hm. unfold matchHere in Hm.
    rewrite matchMarker_empty in Hm. done.
  - destruct (matchHere names (String c s)) as [m0|] eqn:Hh.
    + rewrite (regexExec_here _ _ _ Hh) in Hm. injection Hm as <-.
      pose proof (regexExec_captures _ _ _ (regexExec_here _ _ _ Hh))
        as [H1 H2].
      assert (before m0 = "") as Hb.
      { unfold matchHere in Hh.
        destruct (matchMarker names (String c s)) as [[n1 rest]|]; [|done].
        cbn [mbind option_bind] in Hh.
        destruct (matchLazy names rest) as [[[mid0 n2] tail]|]; [|done].
        by injection Hh as <-. }
      apply regexExec_here.
      unfold matchedText, matched, withBetween. cbn [before capture1 between
        capture2 after]. rewrite Hb, app_empty_l, !app_assoc_string.
      by rewrite matchHere_at.
    + rewrite (regexExec_cons _ _ _ Hh) in Hm.
      destruct (regexExec names s) as [m'|] eqn:He; [|done].
      cbn [fmap option_fmap option_map] in Hm. injection Hm as <-.
      specialize (IH m' eq_refl).
      pose proof (regexExec_parts _ _ _ He) as Hs.
      destruct (regexExec_captures _ _ _ He) as [H1 _].
      unfold matchedText, matched, withBetween in *.
      cbn [before capture1 between capture2 after] in *.
      rewrite !app_assoc_string in *.
      rewrite Hs in Hh.
      change (String c (before m' +:+ ?r)) with (String c (before m') +:+ r)
        in Hh.
      pose proof (matchHere_before_marker names c (before m') (capture1 m') _
                    (mid +:+ marker (capture2 m') +:+ after m')
                    Hnames H1 Hh) as Hh'.
      change (String c (before m') +:+ ?r) with (String c (before m' +:+ r))
        in Hh' |- *.
      rewrite (regexExec_cons _ _ _ Hh'), IH. reflexivity.
Qed.

(** X19.  Running the step again changes nothing more: with a table that
    holds no [$] and no [<], the text the step returns is returned as it is
    by a second run. *)
Theorem replaceMarkers_idempotent (names : list string) (table raw : string) :
  properNames names →
  occurs "$" table = 0 → occurs "<" table = 0 →
  replaceMarkers names table (replaceMarkers names table raw)
  = replaceMarkers names table raw.
Proof.
  intros Hnames Hdollar Hlt.
  destruct (regexExec names raw) as [m|] eqn:Hm.
  2: { unfold replaceMarkers at 2. rewrite Hm.
       unfold replaceMarkers. by rewrite Hm. }
  assert (occurs "<" (blankLine +:+ table +:+ blankLine) = 0) as Hmid.
  { rewrite !occurs_app, Hlt. reflexivity. }
  pose proof (regexExec_withBetween names _ Hnames Hmid raw m Hm) as Hagain.
  assert (replaceMarkers names table raw
          = matchedText (withBetween m (blankLine +:+ table +:+ blankLine)))
    as ->.
  { rewrite (replaceMarkers_plain _ _ _ _ Hm Hdollar).
    unfold matchedText, matched, withBetween. simpl.
    by rewrite !app_assoc_string. }
  by apply (replaceMarkers_up_to_date _ _ _ _ Hagain).
Qed.

Lemma replaceMarkers_idempotent_witness :
  properNames ["commands"; "commands-table"] ∧
  replaceMarkers ["commands"; "commands-table"] "| T |"
    (replaceMarkers ["commands"; "commands-table"] "| T |" exampleNotes)
  = replaceMarkers ["commands"; "commands-table"] "| T |" exampleNotes.
Proof.
  split; [exact properNames_commands|].
  apply replaceMarkers_idempotent;
    [exact properNames_commands | reflexivity | reflexivity].
Defined.

(** ** The shape of the text at concrete tables *)

Lemma formatTable_aligned_witness :
  deref exampleTitles [0; 1]
    = Some [["Title"; "Description"]; ["x"; "a longer value"]] ∧
  Forall (λ row, length row = length ["Title"; "Description"])
    [["x"; "a longer value"]] ∧
  ∃ lines h',
    formatTable [0; 1] exampleTitles
      = Some (JS.join (String "010" "") lines, h') ∧
    length lines = 3 ∧
    ∀ ln, ln ∈ lines → String.length ln = 26.
Proof.
  assert (deref exampleTitles [0; 1]
          = Some [["Title"; "Description"]; ["x"; "a longer value"]]) as Hd
    by (vm_compute; reflexivity).
  assert (Forall (λ row, length row = length ["Title"; "Description"])
            [["x"; "a longer value"]]) as Hrect.
  { apply Forall_cons_2; [reflexivity | apply Forall_nil_2]. }
  split; [exact Hd|]. split; [exact Hrect|].
  exact (formatTable_aligned exampleTitles [0; 1] _ _ Hd Hrect).
Defined.

Lemma formatTable_line_count_witness :
  deref exampleJagged [0; 1; 2]
    = Some [["A"; "B"]; ["x"]; ["long"; ""; "z"]] ∧
  ∃ text h',
    formatTable [0; 1; 2] exampleJagged = Some (text, h') ∧
    length (textLines text) = 4.
Proof.
  assert (deref exampleJagged [0; 1; 2]
          = Some [["A"; "B"]; ["x"]; ["long"; ""; "z"]]) as Hd
    by (vm_compute; reflexivity).
  split; [exact Hd|].
  apply (formatTable_line_count exampleJagged [0; 1; 2] _ _ Hd).
  repeat (apply Forall_cons_2 || apply Forall_nil_2 || reflexivity).
Defined.

Lemma formatTable_beyond_header_witness :
  deref exampleJagged [0; 1; 2]
    = Some [["A"; "B"]; ["x"]; ["long"; ""; "z"]] ∧
  ∃ colChars h',
    measureTable exampleJagged [0; 1; 2]
      (replicate (length ["A"; "B"]) (Num 0)) = Some colChars ∧
    formatTable [0; 1; 2] exampleJagged =
      Some (JS.join (String "010" "")
              (line (padCells colChars ["A"; "B"])
               :: line (map (JS.repeat "-"%char) colChars)
               :: map (λ row, line (padCells colChars row))
                    [["x"]; ["long"; ""; "z"]]), h') ∧
    length colChars = 3 ∧
    padCells colChars ["long"; ""; "z"] !! 2 = Some "z" ∧
    map (JS.repeat "-"%char) colChars !! 2 = Some "".
Proof.
  assert (deref exampleJagged [0; 1; 2]
          = Some [["A"; "B"]; ["x"]; ["long"; ""; "z"]]) as Hd
    by (vm_compute; reflexivity).
  split; [exact Hd|].
  destruct (formatTable_beyond_header exampleJagged [0; 1; 2] ["A"; "B"]
              [["x"]; ["long"; ""; "z"]] Hd)
    as (colChars & h' & Hm & Hf & Hlen & Hbeyond).
  exists colChars, h'. split; [exact Hm|]. split; [exact Hf|].
  split; [exact Hlen|].
  destruct (Hbeyond 2) as [Hcell Hdash]; [simpl; lia|].
  split; [exact (Hcell ["long"; ""; "z"])|].
  apply Hdash. rewrite Hlen. simpl. lia.
Defined.

Lemma generate_up_to_date_witness :
  generate exampleCommands exampleCommandsReadme = Some None.
Proof.
  destruct (generateMarkdown_rows exampleCommands ∅) as (h' & Hg & _).
  destruct (regexExec ["commands"; "commands-table"] exampleCommandsReadme)
    as [m1|] eqn:H1; [|by vm_compute in H1].
  destruct (regexExec ["configs"; "configs-table"] exampleCommandsReadme)
    as [m2|] eqn:H2; [|by vm_compute in H2].
  apply (generate_up_to_date exampleCommands _ _ h' _ m1 m2 Hg H1).
  - vm_compute in H1. injection H1 as <-. vm_compute. reflexivity.
  - exact H2.
  - vm_compute in H2. injection H2 as <-. vm_compute. reflexivity.
  - vm_compute. reflexivity.
  - vm_compute. reflexivity.
Defined.
